(** * Netzob: the [Data] leaf variable

    A shallow embedding of [netzob/Common/Models/Vocabulary/Domain/
    Variables/Leafs/Data.py]: the parsing primitives [domainCMP],
    [valueCMP] and [learn], the specialization primitives [use],
    [regenerate] and [regenerateAndMemorize], and the query [isDefined].

    Python objects that are shared and mutated (paths and memories) live
    in an explicit store and are handled through references; every method
    is a computation in a state-and-exception monad over that store. *)

From Stdlib Require Import ZArith String.
From stdpp Require Import base option list sorting gmap.

Local Open Scope Z_scope.
Local Open Scope nat_scope.

(** ** Data model *)

(** A [bitarray] is a sequence of bits.  Values are immutable here, so the
    [.copy()] of the source is the identity on them. *)
Abbreviation bitarray := (list bool).

Definition copy (b : bitarray) : bitarray := b.

(** References to heap-allocated Python objects. *)
Abbreviation ref := positive.

(** The value-sharing mode of a variable ([svas]). *)
Inductive SVAS := CONSTANT | PERSISTENT | EPHEMERAL | VOLATILE.

(** The collaborator [dataType]: only its interface is used by [Data].
    [size] is the pair [(minSize, maxSize)] with [maxSize] possibly [None];
    [generate] draws a value and is therefore a function of the state of
    the random source, which it advances. *)
Record AbstractType := {
  size : nat * option nat;
  canParse : bitarray → bool;
  generate : N → bitarray * N
}.

(** A [Data] object: [__init__] stores the data type and the original
    value; [id] is the identity under which memories and paths record it. *)
Record Data := {
  id : positive;
  dataType : AbstractType;
  currentValue : option bitarray;
  svas : SVAS
}.

(** Modelled from the spec: the Binding Store ([Memory]) is absent from the
    sources; it maps a field identity to a bit sequence and offers
    [hasValue], [getValue] (a copy) and [memorize] (stores a copy). *)
Abbreviation Memory := (gmap positive bitarray).

(** Modelled from the spec: [GenericPath] with its two variants
    [ParsingPath] and [SpecializingPath] is absent from the sources; a path
    carries a reference to the Binding Store (possibly [None]), a result
    mapping from fields to bits and, for parsing, the residual content
    assigned to each field. *)
Record GenericPath := {
  memory : option ref;
  results : gmap positive bitarray;
  dataAssignedToVariable : gmap positive bitarray
}.

(** The store: path objects, memory objects, state of the random source. *)
Record State := {
  paths : gmap ref GenericPath;
  memories : gmap ref Memory;
  rng : N
}.

(** ** Exceptions and the monad *)

Inductive exn :=
  | Exception (msg : string)
  | TypeError
  | AttributeError
  | InvalidReference.

Inductive outcome (A : Type) :=
  | Return (a : A)
  | Raise (e : exn).
Arguments Return {A} a.
Arguments Raise {A} e.

Definition M (A : Type) : Type := State → outcome A * State.

Definition ret {A} (a : A) : M A := λ σ, (Return a, σ).

Definition raise {A} (e : exn) : M A := λ σ, (Raise e, σ).

Definition bind {A B} (k : A → M B) (m : M A) : M B :=
  λ σ, match m σ with
       | (Return a, σ') => k a σ'
       | (Raise e, σ') => (Raise e, σ')
       end.

#[global] Instance M_ret : MRet M := @ret.
#[global] Instance M_bind : MBind M := @bind.

(** ** Primitive operations on the store *)

Definition readPath (p : ref) : M GenericPath :=
  λ σ, match paths σ !! p with
       | Some P => (Return P, σ)
       | None => (Raise InvalidReference, σ)
       end.

Definition writePath (p : ref) (P : GenericPath) : M unit :=
  λ σ, (Return tt, {| paths := <[p := P]> (paths σ);
                      memories := memories σ; rng := rng σ |}).

Definition readMemory (m : ref) : M Memory :=
  λ σ, match memories σ !! m with
       | Some mem => (Return mem, σ)
       | None => (Raise InvalidReference, σ)
       end.

Definition writeMemory (m : ref) (mem : Memory) : M unit :=
  λ σ, (Return tt, {| paths := paths σ;
                      memories := <[m := mem]> (memories σ); rng := rng σ |}).

(** A reference that no path object uses yet. *)
Definition newRef (ps : gmap ref GenericPath) : ref :=
  Pos.succ (map_fold (λ k _ acc, Pos.max k acc) 1%positive ps).

(** [path.memory]. *)
Definition getMemory (p : ref) : M (option ref) :=
  P ← readPath p ; mret (memory P).

(** Modelled from the spec: [Memory.hasValue(variable)]; calling it on
    [None] is an attribute error. *)
Definition hasValue (m : option ref) (v : Data) : M bool :=
  match m with
  | None => raise AttributeError
  | Some r => mem ← readMemory r ; mret (bool_decide (is_Some (mem !! id v)))
  end.

(** Modelled from the spec: [Memory.getValue(variable)] returns a copy of
    the stored bits and fails when there is no entry. *)
Definition getValue (m : option ref) (v : Data) : M bitarray :=
  match m with
  | None => raise AttributeError
  | Some r =>
      mem ← readMemory r ;
      match mem !! id v with
      | Some b => mret (copy b)
      | None => raise (Exception "No value in memory for this variable")
      end
  end.

(** Modelled from the spec: [Memory.memorize(variable, value)] stores a
    copy of the value in the shared memory object. *)
Definition memorize (m : option ref) (v : Data) (b : bitarray) : M unit :=
  match m with
  | None => raise AttributeError
  | Some r => mem ← readMemory r ; writeMemory r (<[id v := copy b]> mem)
  end.

(** Modelled from the spec: [path.getDataAssignedToVariable(variable)] is
    the residual content at the field's position, [None] when nothing is
    assigned. *)
Definition getDataAssignedToVariable (p : ref) (v : Data) : M (option bitarray) :=
  P ← readPath p ; mret (dataAssignedToVariable P !! id v).

Definition withResult (P : GenericPath) (v : Data) (b : bitarray) : GenericPath :=
  {| memory := memory P;
     results := <[id v := b]> (results P);
     dataAssignedToVariable := dataAssignedToVariable P |}.

(** Modelled from the spec: [path.addResult(variable, bits)] records the
    bits in the result mapping of the path object, in place. *)
Definition addResult (p : ref) (v : Data) (b : bitarray) : M unit :=
  P ← readPath p ; writePath p (withResult P v b).

(** Allocation of a new path object. *)
Definition allocPath (P : GenericPath) : M ref :=
  λ σ, let q := newRef (paths σ) in
       (Return q, {| paths := <[q := P]> (paths σ);
                     memories := memories σ; rng := rng σ |}).

(** Modelled from the spec: [path.duplicate()] creates a new path object,
    an independent branch with its own result mapping that keeps the same
    reference to the Binding Store. *)
Definition duplicate (p : ref) : M ref :=
  P ← readPath p ; allocPath P.

(** [self.dataType.generate()]. *)
Definition generateValue (v : Data) : M bitarray :=
  λ σ, let '(b, g) := generate (dataType v) (rng σ) in
       (Return b, {| paths := paths σ; memories := memories σ; rng := g |}).

(** ** Python sequences *)

(** [len(content)] where [content] may be [None]. *)
Definition len (content : option bitarray) : M nat :=
  match content with
  | Some c => mret (length c)
  | None => raise TypeError
  end.

(** [content[:stop]], with Python's reading of a negative bound. *)
Definition slice_to (c : bitarray) (stop : Z) : bitarray :=
  if (stop <? 0)%Z
  then take (Z.to_nat (Z.of_nat (length c) + stop)) c
  else take (Z.to_nat stop) c.

(** [xrange(start, stop, -1)]. *)
Definition xrange_down (start stop : Z) : list Z :=
  (λ i, (start - Z.of_nat i)%Z) <$> seq 0 (Z.to_nat (start - stop)).

(** ** The methods of [Data] *)

(** A path argument is a reference to a path object or [None]: the
    decorator [@typeCheck] admits nothing else.  The flag [acceptCallBack]
    is an argument that no method reads. *)

(** [Data.isDefined(path)]. *)
Definition isDefined (self : Data) (path : option ref) : M bool :=
  match path with
  | None => raise (Exception "Path cannot be None")
  | Some p =>
      if bool_decide (currentValue self ≠ None) then mret true
      else
        memory ← getMemory p ;
        match memory with
        | None => raise (Exception "Provided path has no memory attached.")
        | Some _ => hasValue memory self
        end
  end.

(** The loop of [domainCMP]:
    [for size in xrange(min(maxSize, len(content)), minSize - 1, -1)],
    given as the list of the sizes still to visit. *)
Fixpoint domainCMP_for (self : Data) (parsingPath : ref) (content : bitarray)
    (sizes : list Z) (results : list ref) : M (list ref) :=
  match sizes with
  | [] => mret results
  | size :: sizes =>
      if bool_decide (size = 0%Z) || canParse (dataType self) (slice_to content size)
      then
        newParsingPath ← duplicate parsingPath ;
        addResult newParsingPath self (copy (slice_to content size)) ;;
        domainCMP_for self parsingPath content sizes (results ++ [newParsingPath])
      else domainCMP_for self parsingPath content sizes results
  end.

(** [Data.domainCMP(parsingPath, acceptCallBack, carnivorous)].  A content
    that is [None] makes the first [len(content)] raise a type error. *)
Definition domainCMP (self : Data) (parsingPath : option ref)
    (acceptCallBack carnivorous : bool) : M (list ref) :=
  match parsingPath with
  | None => raise (Exception "ParsingPath cannot be None")
  | Some parsingPath =>
      content ← getDataAssignedToVariable parsingPath self ;
      match content with
      | None => raise TypeError
      | Some content =>
          let '(minSize, maxSize) := size (dataType self) in
          let maxSize := default (length content) maxSize in
          let results : list ref := [] in
          if bool_decide (length content < minSize) then mret results
          else
            let '(minSize, maxSize) :=
              if carnivorous then (length content, length content)
              else (minSize, maxSize) in
            domainCMP_for self parsingPath content
              (xrange_down (Z.of_nat (min maxSize (length content)))
                           (Z.of_nat minSize - 1))
              results
      end
  end.

(** [Data.valueCMP(parsingPath, acceptCallBack, carnivorous)]. *)
Definition valueCMP (self : Data) (parsingPath : option ref)
    (acceptCallBack carnivorous : bool) : M (list ref) :=
  match parsingPath with
  | None => raise (Exception "ParsingPath cannot be None")
  | Some parsingPath =>
      let expectedValue := currentValue self in
      memory ← getMemory parsingPath ;
      match memory with
      | None => raise (Exception "No memory available")
      | Some _ =>
          known ← hasValue memory self ;
          expectedValue ←
            ((if known : bool
             then value ← getValue memory self ; mret (Some value)
             else mret expectedValue) : M (option bitarray)) ;
          match expectedValue with
          | None =>
              raise (Exception
                "Data '{0}' has no value defined in its definition domain")
          | Some expectedValue =>
              content ← getDataAssignedToVariable parsingPath self ;
              match content with
              | None => raise (Exception "No data assigned to the variable")
              | Some content =>
                  let results : list ref := [] in
                  if bool_decide (length expectedValue ≤ length content)
                     && bool_decide (slice_to content (Z.of_nat (length expectedValue))
                                     = expectedValue)
                  then
                    addResult parsingPath self (copy expectedValue) ;;
                    mret (results ++ [parsingPath])
                  else mret results
              end
          end
      end
  end.

(** The loop of [learn]; it differs from the one of [domainCMP] by the
    call to [memorize] on the memory of the new path. *)
Fixpoint learn_for (self : Data) (parsingPath : ref) (content : bitarray)
    (sizes : list Z) (results : list ref) : M (list ref) :=
  match sizes with
  | [] => mret results
  | size :: sizes =>
      if bool_decide (size = 0%Z) || canParse (dataType self) (slice_to content size)
      then
        newParsingPath ← duplicate parsingPath ;
        addResult newParsingPath self (copy (slice_to content size)) ;;
        memory ← getMemory newParsingPath ;
        memorize memory self (copy (slice_to content size)) ;;
        learn_for self parsingPath content sizes (results ++ [newParsingPath])
      else learn_for self parsingPath content sizes results
  end.

(** [Data.learn(parsingPath, acceptCallBack, carnivorous)]. *)
Definition learn (self : Data) (parsingPath : option ref)
    (acceptCallBack carnivorous : bool) : M (list ref) :=
  match parsingPath with
  | None => raise (Exception "ParsingPath cannot be None")
  | Some parsingPath =>
      content ← getDataAssignedToVariable parsingPath self ;
      match content with
      | None => raise TypeError
      | Some content =>
          let '(minSize, maxSize) := size (dataType self) in
          let maxSize := default (length content) maxSize in
          let results : list ref := [] in
          if bool_decide (length content < minSize) then mret results
          else
            let '(minSize, maxSize) :=
              if carnivorous then (length content, length content)
              else (minSize, maxSize) in
            learn_for self parsingPath content
              (xrange_down (Z.of_nat (min maxSize (length content)))
                           (Z.of_nat minSize - 1))
              results
      end
  end.

(** [Data.use(variableSpecializerPath, acceptCallBack)]. *)
Definition use (self : Data) (variableSpecializerPath : option ref)
    (acceptCallBack : bool) : M (list ref) :=
  match variableSpecializerPath with
  | None => raise (Exception "VariableSpecializerPath cannot be None")
  | Some variableSpecializerPath =>
      memory ← getMemory variableSpecializerPath ;
      let result : list ref := [] in
      known ← hasValue memory self ;
      if known : bool then
        value ← getValue memory self ;
        addResult variableSpecializerPath self value ;;
        mret (result ++ [variableSpecializerPath])
      else
        match currentValue self with
        | Some value =>
            addResult variableSpecializerPath self value ;;
            mret (result ++ [variableSpecializerPath])
        | None => mret result
        end
  end.

(** [Data.regenerate(variableSpecializerPath, acceptCallBack)]. *)
Definition regenerate (self : Data) (variableSpecializerPath : option ref)
    (acceptCallBack : bool) : M (list ref) :=
  match variableSpecializerPath with
  | None => raise (Exception "VariableSpecializerPath cannot be None")
  | Some variableSpecializerPath =>
      newValue ← generateValue self ;
      addResult variableSpecializerPath self newValue ;;
      mret [variableSpecializerPath]
  end.

(** [Data.regenerateAndMemorize(variableSpecializerPath, acceptCallBack)]. *)
Definition regenerateAndMemorize (self : Data)
    (variableSpecializerPath : option ref) (acceptCallBack : bool)
    : M (list ref) :=
  match variableSpecializerPath with
  | None => raise (Exception "VariableSpecializerPath cannot be None")
  | Some variableSpecializerPath =>
      newValue ← generateValue self ;
      memory ← getMemory variableSpecializerPath ;
      memorize memory self newValue ;;
      addResult variableSpecializerPath self newValue ;;
      mret [variableSpecializerPath]
  end.

(** * Vocabulary of the statements *)

(** ** The search, its candidate lengths and its outcome *)

(** The sizes from [hi] down to [lo], in descending order. *)
Definition descending (hi lo : nat) : list nat := reverse (seq lo (S hi - lo)).

(** The test of the loop body: [size == 0 or canParse(content[:size])]. *)
Definition accepts (self : Data) (content : bitarray) (size : Z) : bool :=
  bool_decide (size = 0%Z) || canParse (dataType self) (slice_to content size).

(** The loops of [domainCMP] and [learn] differ by one statement; both are
    instances of this loop, where [learning] switches the statement on. *)
Fixpoint search_for (learning : bool) (self : Data) (parsingPath : ref)
    (content : bitarray) (sizes : list Z) (results : list ref) : M (list ref) :=
  match sizes with
  | [] => mret results
  | size :: sizes =>
      if accepts self content size then
        newParsingPath ← duplicate parsingPath ;
        addResult newParsingPath self (slice_to content size) ;;
        (if learning
         then memory ← getMemory newParsingPath ;
              memorize memory self (slice_to content size)
         else mret tt) ;;
        search_for learning self parsingPath content sizes
          (results ++ [newParsingPath])
      else search_for learning self parsingPath content sizes results
  end.

(** The lengths that the search accepts among those from [hi] down to [lo]:
    length [0] unconditionally, any other length when [canParse] accepts
    the prefix of that length. *)
Definition accepted_lengths (self : Data) (c : bitarray) (hi lo : nat) : list nat :=
  filter (λ L, L = 0 ∨ canParse (dataType self) (take L c) = true)
         (descending hi lo).

(** The bounds [(hi, lo)] of the loop for a content of [n] bits. *)
Definition search_bounds (mn : nat) (mx : option nat) (n : nat)
    (carnivorous : bool) : nat * nat :=
  if carnivorous then (n, n) else (min (default n mx) n, mn).

(** The path object at [l] records the bits [b] as the result of [self]. *)
Definition recorded (σ : State) (l : ref) (self : Data) (b : bitarray) : Prop :=
  ∃ P, paths σ !! l = Some P ∧ results P !! id self = Some b.

(** The memory attached to the path object at [l] holds [b] for [self]. *)
Definition memorized (σ : State) (l : ref) (self : Data) (b : bitarray) : Prop :=
  ∃ P m mem, paths σ !! l = Some P ∧ memory P = Some m
             ∧ memories σ !! m = Some mem ∧ mem !! id self = Some b.

(** What holds of every successor of a search with bounds [(mn, mx)] over
    the content [c]: its result is no longer than [c]; it is [c] itself
    under the carnivorous flag, and no longer than a declared maximum
    without the flag. *)
Definition within_bounds (σ' : State) (self : Data) (c : bitarray)
    (mx : option nat) (carnivorous : bool) (succs : list ref) : Prop :=
  ∀ l, l ∈ succs →
    ∃ b, recorded σ' l self b
         ∧ length b ≤ length c
         ∧ if carnivorous then b = c
           else ∀ M, mx = Some M → length b ≤ M.

(** The store after [addResult] on the path object at [p]. *)
Definition with_path (σ : State) (p : ref) (P : GenericPath) : State :=
  {| paths := <[p := P]> (paths σ); memories := memories σ; rng := rng σ |}.

(** The two entry points of the search: [learn] when [learning], and
    [domainCMP] otherwise. *)
Definition search (learning : bool) :
    Data → option ref → bool → bool → M (list ref) :=
  if learning then learn else domainCMP.

(** The lengths for which a call of the search over the content [c] creates
    a successor, in the order of creation: none when [c] is shorter than
    the declared minimum. *)
Definition call_lengths (self : Data) (c : bitarray) (carnivorous : bool) : list nat :=
  if bool_decide (length c < (size (dataType self)).1) then []
  else
    accepted_lengths self c
      (search_bounds (size (dataType self)).1 (size (dataType self)).2
         (length c) carnivorous).1
      (search_bounds (size (dataType self)).1 (size (dataType self)).2
         (length c) carnivorous).2.

(** ** Sequences of volatile calls *)

(** A computation that never writes to a memory object, whatever it
    returns or raises. *)
Definition preserves_memories {A} (f : M A) : Prop :=
  ∀ σ, memories (f σ).2 = memories σ.

(** A call of one of the two primitives of the volatile mode. *)
Inductive volatile_call :=
  | call_domainCMP (parsingPath : option ref) (acceptCallBack carnivorous : bool)
  | call_regenerate (variableSpecializerPath : option ref) (acceptCallBack : bool).

Definition run_call (self : Data) (call : volatile_call) : M (list ref) :=
  match call with
  | call_domainCMP p acb carnivorous => domainCMP self p acb carnivorous
  | call_regenerate p acb => regenerate self p acb
  end.

(** The store after a sequence of calls, each made on the store left by
    the one before, whether it returned or raised. *)
Fixpoint run_calls (self : Data) (calls : list volatile_call) (σ : State) : State :=
  match calls with
  | [] => σ
  | call :: calls => run_calls self calls (run_call self call σ).2
  end.

(** ** Example objects *)

(** A type of [mn] to [mx] bits that parses the contents of even length. *)
Definition ex_type (mn : nat) (mx : option nat) : AbstractType :=
  {| size := (mn, mx);
     canParse := λ b, Nat.even (length b);
     generate := λ g, (replicate mn true, N.succ g) |}.

(** A type of [mn] to [mx] bits that parses every content, as a raw type. *)
Definition ex_raw (mn : nat) (mx : option nat) : AbstractType :=
  {| size := (mn, mx);
     canParse := λ _, true;
     generate := λ g, (replicate mn (N.even g), N.succ g) |}.

Definition ex_data (t : AbstractType) (value : option bitarray) : Data :=
  {| id := 1; dataType := t; currentValue := value; svas := EPHEMERAL |}.

Definition ex_path (m : option ref) (content : bitarray) : GenericPath :=
  {| memory := m; results := ∅; dataAssignedToVariable := {[ 1%positive := content ]} |}.

(** One path object at reference [1] over the given content, attached to
    the memory object at reference [1]. *)
Definition ex_state (content : bitarray) (mem : Memory) : State :=
  {| paths := {[ 1%positive := ex_path (Some 1%positive) content ]};
     memories := {[ 1%positive := mem ]};
     rng := 0 |}.

(** The same without a memory attached to the path. *)
Definition ex_state_no_memory (content : bitarray) : State :=
  {| paths := {[ 1%positive := ex_path None content ]};
     memories := ∅;
     rng := 0 |}.

(** * Properties *)

(** ** References and the store *)

Lemma newRef_fresh (ps : gmap ref GenericPath) : ps !! newRef ps = None.
Proof.
  unfold newRef.
  cut (∀ k, is_Some (ps !! k) →
         (k ≤ map_fold (λ k _ acc, Pos.max k acc) 1 ps)%positive).
  { intros Hle. destruct (ps !! Pos.succ _) eqn:E; [|done].
    specialize (Hle _ (mk_is_Some _ _ E)). lia. }
  apply (map_fold_weak_ind (λ r m, ∀ k, is_Some (m !! k) → (k ≤ r)%positive)).
  - intros k [? Hk]. by rewrite lookup_empty in Hk.
  - intros i x m r _ IH k Hk.
    destruct (decide (i = k)) as [->|Hne]; [lia|].
    rewrite lookup_insert_ne in Hk by done. specialize (IH _ Hk). lia.
Qed.

Lemma bind_run {A B} (m : M A) (k : A → M B) σ :
  (m ≫= k) σ = match m σ with
               | (Return a, σ') => k a σ'
               | (Raise e, σ') => (Raise e, σ')
               end.
Proof. reflexivity. Qed.

Lemma readPath_run p σ P :
  paths σ !! p = Some P → readPath p σ = (Return P, σ).
Proof. intros H. unfold readPath. by rewrite H. Qed.

Lemma readMemory_run m σ mem :
  memories σ !! m = Some mem → readMemory m σ = (Return mem, σ).
Proof. intros H. unfold readMemory. by rewrite H. Qed.

Lemma getMemory_run p σ P :
  paths σ !! p = Some P → getMemory p σ = (Return (memory P), σ).
Proof. intros H. unfold getMemory. by rewrite bind_run, (readPath_run _ _ P). Qed.

Lemma getData_run p v σ P :
  paths σ !! p = Some P →
  getDataAssignedToVariable p v σ = (Return (dataAssignedToVariable P !! id v), σ).
Proof.
  intros H. unfold getDataAssignedToVariable.
  by rewrite bind_run, (readPath_run _ _ P).
Qed.

Lemma addResult_run p v b σ P :
  paths σ !! p = Some P →
  addResult p v b σ =
    (Return tt, {| paths := <[p := withResult P v b]> (paths σ);
                   memories := memories σ; rng := rng σ |}).
Proof. intros H. unfold addResult. by rewrite bind_run, (readPath_run _ _ P). Qed.

Lemma duplicate_run p σ P :
  paths σ !! p = Some P →
  duplicate p σ =
    (Return (newRef (paths σ)),
     {| paths := <[newRef (paths σ) := P]> (paths σ);
        memories := memories σ; rng := rng σ |}).
Proof. intros H. unfold duplicate. by rewrite bind_run, (readPath_run _ _ P). Qed.

Lemma hasValue_run m v σ mem :
  memories σ !! m = Some mem →
  hasValue (Some m) v σ = (Return (bool_decide (is_Some (mem !! id v))), σ).
Proof. intros H. unfold hasValue. by rewrite bind_run, (readMemory_run _ _ mem). Qed.

Lemma getValue_run m v σ mem b :
  memories σ !! m = Some mem → mem !! id v = Some b →
  getValue (Some m) v σ = (Return b, σ).
Proof.
  intros H Hb. unfold getValue.
  by rewrite bind_run, (readMemory_run _ _ mem), Hb.
Qed.

Lemma memorize_run m v b σ mem :
  memories σ !! m = Some mem →
  memorize (Some m) v b σ =
    (Return tt, {| paths := paths σ;
                   memories := <[m := <[id v := b]> mem]> (memories σ);
                   rng := rng σ |}).
Proof. intros H. unfold memorize. by rewrite bind_run, (readMemory_run _ _ mem). Qed.

(** ** Candidate sizes *)

Lemma xrange_down_descending (hi lo : nat) :
  xrange_down (Z.of_nat hi) (Z.of_nat lo - 1) = Z.of_nat <$> descending hi lo.
Proof.
  unfold xrange_down, descending.
  replace (Z.to_nat (Z.of_nat hi - (Z.of_nat lo - 1))) with (S hi - lo) by lia.
  apply list_eq. intros i. rewrite !list_lookup_fmap.
  destruct (decide (i < S hi - lo)) as [Hi|Hi].
  - rewrite reverse_lookup by (rewrite length_seq; lia).
    rewrite length_seq, !lookup_seq_lt by lia. simpl. f_equal. lia.
  - rewrite lookup_seq_ge by lia.
    rewrite (lookup_ge_None_2 (reverse _)); [done|].
    rewrite length_reverse, length_seq. lia.
Qed.

Example xrange_down_to_zero : xrange_down 3 (0 - 1) = [3; 2; 1; 0]%Z.
Proof. reflexivity. Qed.

Example xrange_down_empty : xrange_down 2 (4 - 1) = [].
Proof. reflexivity. Qed.

Example descending_3_1 : descending 3 1 = [3; 2; 1].
Proof. reflexivity. Qed.

Example slice_to_negative : slice_to [true; false; true] (-1) = [true; false].
Proof. reflexivity. Qed.

(** Longer prefixes come first: over two bits that parse at every length
    the successors are created for the lengths 2, 1 and 0, in that order. *)
Example domainCMP_longest_first :
  let self := ex_data (ex_raw 0 None) None in
  let run := domainCMP self (Some 1%positive) true false (ex_state [true; false] ∅) in
  run.1 = Return [2%positive; 3%positive; 4%positive]
  ∧ (λ l, P ← paths run.2 !! l ; results P !! id self)
      <$> [2%positive; 3%positive; 4%positive]
    = [Some [true; false]; Some [true]; Some []].
Proof. split; vm_compute; reflexivity. Qed.

(** ** The backtracking loop *)

Lemma domainCMP_for_search self pp content sizes :
  ∀ results σ,
    domainCMP_for self pp content sizes results σ
    = search_for false self pp content sizes results σ.
Proof.
  induction sizes as [|size sizes IH]; intros results σ; [done|].
  simpl. unfold accepts, copy.
  destruct (_ || _); [|apply IH].
  rewrite !bind_run. destruct (duplicate pp σ) as [[q|e] σ1]; [|done].
  rewrite !bind_run. destruct (addResult q self _ σ1) as [[[]|e] σ2]; [|done].
  rewrite bind_run. apply IH.
Qed.

Lemma learn_for_search self pp content sizes :
  ∀ results σ,
    learn_for self pp content sizes results σ
    = search_for true self pp content sizes results σ.
Proof.
  induction sizes as [|size sizes IH]; intros results σ; [done|].
  simpl. unfold accepts, copy.
  destruct (_ || _); [|apply IH].
  rewrite !bind_run. destruct (duplicate pp σ) as [[q|e] σ1]; [|done].
  rewrite !bind_run. destruct (addResult q self _ σ1) as [[[]|e] σ2]; [|done].
  rewrite !bind_run. destruct (getMemory q σ2) as [[mm|e] σ3]; [|done].
  rewrite ?bind_run. destruct (memorize mm self _ σ3) as [[[]|e] σ4]; [|done].
  apply IH.
Qed.

(** One more successor [q] in front of those of the rest of the loop: the
    four facts about path objects carry over from the store that has [q]
    to the one that does not have it yet. *)
Local Ltac extend_successors q Hfresh Hnew Hold :=
  split;
    [ constructor; [rewrite Hold; rewrite lookup_insert_eq; done | done] |];
  split;
    [ constructor; [|done];
      let Hin := fresh in intros Hin%Hnew; by rewrite lookup_insert_eq in Hin |];
  split;
    [ let l := fresh "l" in let Hin := fresh in
      intros l [->|Hin]%elem_of_cons; [done|]; apply Hnew in Hin;
      destruct (decide (q = l)) as [->|];
        [by rewrite lookup_insert_eq in Hin | by rewrite lookup_insert_ne in Hin] |];
  split;
    [ let l := fresh "l" in let Hl := fresh in
      intros l Hl;
      assert (q ≠ l) by (intros ->; rewrite Hfresh in Hl; by destruct Hl);
      rewrite Hold; rewrite lookup_insert_ne; done |].

(** What one run of the loop does: a new path object per accepted size, in
    the order of the sizes, every old path object untouched, the random
    source untouched, and the memory holding the prefix of the last
    accepted size when the loop memorizes. *)
Lemma search_for_spec learning self pp content P m sizes :
  ∀ results σ mem,
    paths σ !! pp = Some P →
    (learning = true → memory P = Some m ∧ memories σ !! m = Some mem) →
    ∃ news σ',
      search_for learning self pp content sizes results σ
        = (Return (results ++ news), σ')
      ∧ Forall2 (λ l size,
            paths σ' !! l = Some (withResult P self (slice_to content size)))
          news (filter (λ size, accepts self content size) sizes)
      ∧ NoDup news
      ∧ (∀ l, l ∈ news → paths σ !! l = None)
      ∧ (∀ l, is_Some (paths σ !! l) → paths σ' !! l = paths σ !! l)
      ∧ rng σ' = rng σ
      ∧ memories σ' =
          if learning then
            match last (filter (λ size, accepts self content size) sizes) with
            | Some size =>
                <[m := <[id self := slice_to content size]> mem]> (memories σ)
            | None => memories σ
            end
          else memories σ.
Proof.
  induction sizes as [|size sizes IH]; intros results σ mem Hpp Hmem.
  { exists [], σ. simpl. rewrite app_nil_r.
    split_and!; try done; try constructor.
    - by intros l ?%elem_of_nil.
    - by destruct learning. }
  simpl. rewrite filter_cons.
  destruct (accepts self content size) eqn:Hacc; simpl.
  2:{ by apply IH. }
  pose proof (newRef_fresh (paths σ)) as Hfresh.
  set (q := newRef (paths σ)) in *.
  assert (q ≠ pp) as Hne by congruence.
  set (Q := withResult P self (slice_to content size)).
  rewrite bind_run, (duplicate_run _ _ P) by done. fold q.
  rewrite bind_run, (addResult_run _ _ _ _ P) by (simpl; apply lookup_insert_eq).
  simpl. rewrite insert_insert_eq. fold Q.
  rewrite bind_run.
  destruct learning.
  - destruct (Hmem eq_refl) as [HmP Hm].
    rewrite bind_run, (getMemory_run _ _ Q) by (simpl; apply lookup_insert_eq).
    simpl. rewrite HmP.
    rewrite (memorize_run _ _ _ _ mem) by done. simpl.
    edestruct (IH (results ++ [q])
      {| paths := <[q := Q]> (paths σ);
         memories := <[m := <[id self := slice_to content size]> mem]> (memories σ);
         rng := rng σ |} (<[id self := slice_to content size]> mem))
      as (news & σ' & Hrun & Hall & Hnd & Hnew & Hold & Hrng & Hmems).
    { simpl. by rewrite lookup_insert_ne. }
    { intros _. split; [done|]. simpl. apply lookup_insert_eq. }
    simpl in *.
    exists (q :: news), σ'. rewrite Hrun, <- app_assoc. simpl.
    split; [done|]. extend_successors q Hfresh Hnew Hold.
    split; [done|].
    rewrite Hmems, last_cons.
    destruct (last _); by rewrite ?insert_insert_eq.
  - simpl.
    edestruct (IH (results ++ [q])
      {| paths := <[q := Q]> (paths σ); memories := memories σ; rng := rng σ |} mem)
      as (news & σ' & Hrun & Hall & Hnd & Hnew & Hold & Hrng & Hmems).
    { simpl. by rewrite lookup_insert_ne. }
    { done. }
    simpl in *.
    exists (q :: news), σ'. rewrite Hrun, <- app_assoc. simpl.
    split; [done|]. extend_successors q Hfresh Hnew Hold.
    done.
Qed.

(** ** Candidate lengths as natural numbers *)

Lemma slice_to_nat (c : bitarray) (L : nat) : slice_to c (Z.of_nat L) = take L c.
Proof.
  unfold slice_to. destruct (Z.ltb_spec (Z.of_nat L) 0); [lia|].
  by rewrite Nat2Z.id.
Qed.

Lemma accepts_nat self c (L : nat) :
  accepts self c (Z.of_nat L) ↔ L = 0 ∨ canParse (dataType self) (take L c) = true.
Proof.
  unfold accepts. rewrite slice_to_nat, orb_True, bool_decide_spec, Is_true_true.
  split; (intros [?|?]; [left; lia|by right]).
Qed.

Lemma filter_accepts_nat self c (ls : list nat) :
  filter (λ size, accepts self c size) (Z.of_nat <$> ls)
  = Z.of_nat <$> filter (λ L, L = 0 ∨ canParse (dataType self) (take L c) = true) ls.
Proof.
  induction ls as [|L ls IH]; [done|].
  rewrite fmap_cons, !filter_cons, IH.
  destruct (decide (accepts self c (Z.of_nat L))) as [Ha|Ha];
    destruct (decide (L = 0 ∨ _)) as [Hb|Hb]; try done;
    apply accepts_nat in Ha || (exfalso; apply Ha, accepts_nat, Hb); done.
Qed.

Lemma elem_of_descending (L hi lo : nat) : L ∈ descending hi lo ↔ lo ≤ L ≤ hi.
Proof. unfold descending. rewrite elem_of_reverse, elem_of_seq. lia. Qed.

Lemma elem_of_accepted_lengths self c hi lo L :
  L ∈ accepted_lengths self c hi lo ↔
  lo ≤ L ≤ hi ∧ (L = 0 ∨ canParse (dataType self) (take L c) = true).
Proof.
  unfold accepted_lengths.
  rewrite list_elem_of_filter, elem_of_descending. tauto.
Qed.

(** ** The two search entry points reduced to the loop *)

Section search_call.
Variables (self : Data) (pp : ref) (σ : State) (P : GenericPath).
Variables (c : bitarray) (mn : nat) (mx : option nat).
Hypothesis Hpath : paths σ !! pp = Some P.
Hypothesis Hcontent : dataAssignedToVariable P !! id self = Some c.
Hypothesis Hsize : size (dataType self) = (mn, mx).

Lemma domainCMP_unfold acb carnivorous :
  domainCMP self (Some pp) acb carnivorous σ =
    if bool_decide (length c < mn) then (Return [], σ)
    else
      let '(hi, lo) := search_bounds mn mx (length c) carnivorous in
      search_for false self pp c (Z.of_nat <$> descending hi lo) [] σ.
Proof.
  unfold domainCMP.
  rewrite bind_run, (getData_run _ _ _ P), Hcontent, Hsize by done.
  case_bool_decide; [done|].
  unfold search_bounds. destruct carnivorous.
  - rewrite Nat.min_id, domainCMP_for_search.
    by rewrite xrange_down_descending.
  - rewrite domainCMP_for_search. by rewrite xrange_down_descending.
Qed.

Lemma learn_unfold acb carnivorous :
  learn self (Some pp) acb carnivorous σ =
    if bool_decide (length c < mn) then (Return [], σ)
    else
      let '(hi, lo) := search_bounds mn mx (length c) carnivorous in
      search_for true self pp c (Z.of_nat <$> descending hi lo) [] σ.
Proof.
  unfold learn.
  rewrite bind_run, (getData_run _ _ _ P), Hcontent, Hsize by done.
  case_bool_decide; [done|].
  unfold search_bounds. destruct carnivorous.
  - rewrite Nat.min_id, learn_for_search.
    by rewrite xrange_down_descending.
  - rewrite learn_for_search. by rewrite xrange_down_descending.
Qed.

(** The search over the lengths from [hi] down to [lo]. *)
Lemma search_for_lengths learning m mem hi lo :
  (learning = true → memory P = Some m ∧ memories σ !! m = Some mem) →
  ∃ succs σ',
    search_for learning self pp c (Z.of_nat <$> descending hi lo) [] σ
      = (Return succs, σ')
    ∧ Forall2 (λ l L, paths σ' !! l = Some (withResult P self (take L c)))
        succs (accepted_lengths self c hi lo)
    ∧ NoDup succs
    ∧ (∀ l, l ∈ succs → paths σ !! l = None)
    ∧ (∀ l, is_Some (paths σ !! l) → paths σ' !! l = paths σ !! l)
    ∧ rng σ' = rng σ
    ∧ memories σ' =
        if learning then
          match last (accepted_lengths self c hi lo) with
          | Some L => <[m := <[id self := take L c]> mem]> (memories σ)
          | None => memories σ
          end
        else memories σ.
Proof.
  intros Hmem.
  destruct (search_for_spec learning self pp c P m
              (Z.of_nat <$> descending hi lo) [] σ mem Hpath Hmem)
    as (succs & σ' & Hrun & Hall & Hnd & Hnew & Hold & Hrng & Hmems).
  exists succs, σ'. rewrite filter_accepts_nat in Hall, Hmems.
  fold (accepted_lengths self c hi lo) in Hall, Hmems.
  split_and!; try done.
  - apply Forall2_fmap_r in Hall.
    eapply Forall2_impl; [exact Hall|]. intros l L. simpl.
    by rewrite slice_to_nat.
  - rewrite Hmems. destruct learning; [|done].
    rewrite fmap_last.
    destruct (last (accepted_lengths self c hi lo)); simpl; [|done].
    by rewrite slice_to_nat.
Qed.
End search_call.

(** ** The backtracking matcher *)

(** C1: without the carnivorous flag, [domainCMP] on a residual content [c]
    with size bounds [(mn, mx)] returns no successor when [c] is shorter
    than [mn]; otherwise it returns, for the lengths from
    [min(mx, len c)] (an absent [mx] being [len c]) down to [mn] in
    descending order, one successor per length that is [0] or whose prefix
    [canParse] accepts, each a new duplicate of the input path with that
    prefix recorded as the result of the field. *)
Theorem domainCMP_enumerates self pp acb σ P c mn mx :
  paths σ !! pp = Some P →
  dataAssignedToVariable P !! id self = Some c →
  size (dataType self) = (mn, mx) →
  (length c < mn →
     domainCMP self (Some pp) acb false σ = (Return [], σ))
  ∧ (mn ≤ length c →
     ∃ succs σ',
       domainCMP self (Some pp) acb false σ = (Return succs, σ')
       ∧ Forall2 (λ l L, paths σ' !! l = Some (withResult P self (take L c)))
           succs
           (accepted_lengths self c (min (default (length c) mx) (length c)) mn)
       ∧ NoDup succs
       ∧ (∀ l, l ∈ succs → paths σ !! l = None)
       ∧ (∀ l, is_Some (paths σ !! l) → paths σ' !! l = paths σ !! l)
       ∧ memories σ' = memories σ
       ∧ rng σ' = rng σ).
Proof.
  intros Hpath Hcontent Hsize.
  rewrite (domainCMP_unfold self pp σ P c mn mx) by done.
  split; intros Hlen.
  - by rewrite bool_decide_true.
  - rewrite bool_decide_false by lia. simpl.
    destruct (search_for_lengths self pp σ P c Hpath false 1%positive ∅
                (min (default (length c) mx) (length c)) mn)
      as (succs & σ' & Hrun & Hall & Hnd & Hnew & Hold & Hrng & Hmems); [done|].
    exists succs, σ'. split_and!; done.
Qed.

Lemma domainCMP_enumerates_witness :
  ∃ succs σ',
    domainCMP (ex_data (ex_type 1 (Some 3)) None) (Some 1%positive) true false
      (ex_state [true; false; true; true] ∅) = (Return succs, σ')
    ∧ Forall2 (λ l L, paths σ' !! l
                      = Some (withResult (ex_path (Some 1%positive) [true; false; true; true])
                                (ex_data (ex_type 1 (Some 3)) None)
                                (take L [true; false; true; true])))
        succs [2].
Proof.
  destruct (domainCMP_enumerates (ex_data (ex_type 1 (Some 3)) None) 1%positive
              true (ex_state [true; false; true; true] ∅)
              (ex_path (Some 1%positive) [true; false; true; true])
              [true; false; true; true] 1 (Some 3)
              eq_refl eq_refl eq_refl) as [_ H].
  destruct H as (succs & σ' & Hrun & Hall & _); [simpl; lia|].
  exists succs, σ'. split; [exact Hrun|exact Hall].
Defined.

(** C10: in [domainCMP] and in [learn] the test against the minimum size
    comes before the carnivorous flag is looked at: with the flag set and a
    residual content strictly shorter than the declared minimum, both
    return the empty collection and leave the store as it was. *)
Theorem minimum_checked_before_carnivorous self pp acb σ P c mn mx :
  paths σ !! pp = Some P →
  dataAssignedToVariable P !! id self = Some c →
  size (dataType self) = (mn, mx) →
  length c < mn →
  domainCMP self (Some pp) acb true σ = (Return [], σ)
  ∧ learn self (Some pp) acb true σ = (Return [], σ).
Proof.
  intros Hpath Hcontent Hsize Hlen.
  rewrite (domainCMP_unfold self pp σ P c mn mx),
          (learn_unfold self pp σ P c mn mx) by done.
  by rewrite bool_decide_true.
Qed.

Lemma minimum_checked_before_carnivorous_witness :
  domainCMP (ex_data (ex_raw 3 None) None) (Some 1%positive) true true
    (ex_state [true; false] ∅) = (Return [], ex_state [true; false] ∅)
  ∧ learn (ex_data (ex_raw 3 None) None) (Some 1%positive) true true
      (ex_state [true; false] ∅) = (Return [], ex_state [true; false] ∅).
Proof.
  apply (minimum_checked_before_carnivorous (ex_data (ex_raw 3 None) None)
           1%positive true (ex_state [true; false] ∅)
           (ex_path (Some 1%positive) [true; false]) [true; false] 3 None);
    [reflexivity | reflexivity | reflexivity | simpl; lia].
Defined.

Lemma withResult_recorded σ l P self b :
  paths σ !! l = Some (withResult P self b) → recorded σ l self b.
Proof. intros H. exists (withResult P self b). split; [done|]. apply lookup_insert_eq. Qed.

Lemma successors_recorded (σ' : State) P self c succs lengths l :
  Forall2 (λ l L, paths σ' !! l = Some (withResult P self (take L c)))
    succs lengths →
  l ∈ succs →
  ∃ L, L ∈ lengths ∧ paths σ' !! l = Some (withResult P self (take L c)).
Proof.
  intros Hall [i Hi]%list_elem_of_lookup.
  destruct (Forall2_lookup_l _ _ _ _ _ Hall Hi) as (L & HL & Hl).
  exists L. split; [|done]. apply list_elem_of_lookup. eauto.
Qed.

Lemma search_within_bounds self (σ' : State) P c mn mx carnivorous succs :
  Forall2 (λ l L, paths σ' !! l = Some (withResult P self (take L c)))
    succs
    (accepted_lengths self c (search_bounds mn mx (length c) carnivorous).1
                             (search_bounds mn mx (length c) carnivorous).2) →
  within_bounds σ' self c mx carnivorous succs.
Proof.
  intros Hall l Hl.
  destruct (successors_recorded _ _ _ _ _ _ _ Hall Hl) as (L & HL & HP).
  apply elem_of_accepted_lengths in HL as [HL _].
  exists (take L c). split; [by eapply withResult_recorded|].
  split; [rewrite length_take; lia|].
  unfold search_bounds in HL. destruct carnivorous; simpl in HL.
  - apply take_ge. lia.
  - intros M ->. simpl in HL. rewrite length_take. lia.
Qed.

(** C4, as the code has it: every successor returned by [domainCMP] or
    [learn] records a result no longer than the residual content; without
    the carnivorous flag it is no longer than the declared maximum either;
    with the flag the recorded result is the whole residual content,
    whatever the declared maximum. *)
Theorem search_lengths_bounded self pp acb carnivorous σ P c mn mx :
  paths σ !! pp = Some P →
  dataAssignedToVariable P !! id self = Some c →
  size (dataType self) = (mn, mx) →
  (∃ succs σ',
     domainCMP self (Some pp) acb carnivorous σ = (Return succs, σ')
     ∧ within_bounds σ' self c mx carnivorous succs)
  ∧ (∀ m mem,
       memory P = Some m → memories σ !! m = Some mem →
       ∃ succs σ',
         learn self (Some pp) acb carnivorous σ = (Return succs, σ')
         ∧ within_bounds σ' self c mx carnivorous succs).
Proof.
  intros Hpath Hcontent Hsize.
  rewrite (domainCMP_unfold self pp σ P c mn mx),
          (learn_unfold self pp σ P c mn mx) by done.
  case_bool_decide as Hlen.
  { split; [|intros m mem _ _]; exists [], σ;
      (split; [done|]); by intros l ?%elem_of_nil. }
  destruct (search_bounds mn mx (length c) carnivorous) as [hi lo] eqn:Hb.
  split.
  - destruct (search_for_lengths self pp σ P c Hpath false 1%positive ∅ hi lo)
      as (succs & σ' & Hrun & Hall & _); [done|].
    exists succs, σ'. split; [done|].
    apply (search_within_bounds self σ' P c mn mx). by rewrite Hb.
  - intros m mem HmP Hm.
    destruct (search_for_lengths self pp σ P c Hpath true m mem hi lo)
      as (succs & σ' & Hrun & Hall & _); [done|].
    exists succs, σ'. split; [done|].
    apply (search_within_bounds self σ' P c mn mx). by rewrite Hb.
Qed.

Lemma search_lengths_bounded_witness :
  (∃ succs σ',
     learn (ex_data (ex_type 1 (Some 3)) None) (Some 1%positive) true false
       (ex_state [true; false; true; true] ∅) = (Return succs, σ')
     ∧ within_bounds σ' (ex_data (ex_type 1 (Some 3)) None)
         [true; false; true; true] (Some 3) false succs)
  ∧ (∃ succs σ',
       domainCMP (ex_data (ex_type 1 (Some 3)) None) (Some 1%positive) true true
         (ex_state [true; false; true; true] ∅) = (Return succs, σ')
       ∧ within_bounds σ' (ex_data (ex_type 1 (Some 3)) None)
           [true; false; true; true] (Some 3) true succs).
Proof.
  split.
  - destruct (search_lengths_bounded (ex_data (ex_type 1 (Some 3)) None)
                1%positive true false (ex_state [true; false; true; true] ∅)
                (ex_path (Some 1%positive) [true; false; true; true])
                [true; false; true; true] 1 (Some 3)
                eq_refl eq_refl eq_refl) as [_ H].
    exact (H 1%positive ∅ eq_refl eq_refl).
  - destruct (search_lengths_bounded (ex_data (ex_type 1 (Some 3)) None)
                1%positive true true (ex_state [true; false; true; true] ∅)
                (ex_path (Some 1%positive) [true; false; true; true])
                [true; false; true; true] 1 (Some 3)
                eq_refl eq_refl eq_refl) as [H _].
    exact H.
Defined.

(** C4 as stated fails: a carnivorous [domainCMP] over five bits of content
    for a type of at most two bits returns a successor that records all
    five bits. *)
Lemma carnivorous_exceeds_declared_maximum :
  let self := ex_data (ex_raw 0 (Some 2)) None in
  let c := [true; true; false; false; true] in
  ∃ l σ' b,
    domainCMP self (Some 1%positive) true true (ex_state c ∅) = (Return [l], σ')
    ∧ recorded σ' l self b
    ∧ size (dataType self) = (0, Some 2)
    ∧ ¬ length b ≤ 2.
Proof.
  intros self c.
  eexists 2%positive, _, c. split; [vm_compute; reflexivity|].
  split; [|split; [reflexivity|simpl; lia]].
  eexists. split; vm_compute; reflexivity.
Qed.

(** ** The exact matcher *)

Lemma prefix_take (e c : bitarray) :
  e `prefix_of` c ↔ length e ≤ length c ∧ take (length e) c = e.
Proof.
  split.
  - intros [k ->]. rewrite length_app, take_app_length. split; [lia|done].
  - intros [_ Heq]. exists (drop (length e) c).
    rewrite <- Heq at 1. by rewrite take_drop.
Qed.

Section valueCMP_call.
Variables (self : Data) (pp : ref) (σ : State) (P : GenericPath).
Variables (m : ref) (mem : Memory).
Hypothesis Hpath : paths σ !! pp = Some P.
Hypothesis Hmemory : memory P = Some m.
Hypothesis Hmem : memories σ !! m = Some mem.

Lemma valueCMP_unfold acb carnivorous :
  valueCMP self (Some pp) acb carnivorous σ =
    match (match mem !! id self with
           | Some b => Some b
           | None => currentValue self
           end) with
    | None =>
        (Raise (Exception
           "Data '{0}' has no value defined in its definition domain"), σ)
    | Some e =>
        match dataAssignedToVariable P !! id self with
        | None => (Raise (Exception "No data assigned to the variable"), σ)
        | Some c =>
            if bool_decide (e `prefix_of` c)
            then (Return [pp], with_path σ pp (withResult P self e))
            else (Return [], σ)
        end
    end.
Proof.
  unfold valueCMP.
  rewrite bind_run, (getMemory_run _ _ P), Hmemory by done.
  rewrite bind_run, (hasValue_run _ _ _ mem) by done.
  rewrite bind_run.
  assert (∀ e c,
    (if bool_decide (length e ≤ length c)
        && bool_decide (slice_to c (Z.of_nat (length e)) = e)
     then addResult pp self (copy e) ≫= λ _, mret ([] ++ [pp])
     else mret []) σ
    = if bool_decide (e `prefix_of` c)
      then (Return [pp], with_path σ pp (withResult P self e))
      else (Return [], σ)) as Hcmp.
  { intros e c. rewrite slice_to_nat.
    destruct (decide (e `prefix_of` c)) as [Hp|Hp].
    - rewrite (bool_decide_true (_ `prefix_of` _)) by done.
      apply prefix_take in Hp as [??]. rewrite !bool_decide_true by done.
      simpl. by rewrite bind_run, (addResult_run _ _ _ _ P).
    - rewrite (bool_decide_false (_ `prefix_of` _)) by done.
      rewrite prefix_take in Hp.
      destruct (decide (length e ≤ length c));
        [|by rewrite (bool_decide_false (_ ≤ _))].
      rewrite (bool_decide_false (_ = _)) by tauto.
      by rewrite andb_false_r. }
  destruct (mem !! id self) as [b|] eqn:Hb.
  - rewrite bool_decide_true by done.
    rewrite bind_run, (getValue_run _ _ _ mem b) by done. simpl.
    rewrite bind_run, (getData_run _ _ _ P) by done.
    destruct (dataAssignedToVariable P !! id self); [apply Hcmp|done].
  - rewrite bool_decide_false by (by intros [??]). simpl.
    destruct (currentValue self) as [e|]; [|done].
    rewrite bind_run, (getData_run _ _ _ P) by done.
    destruct (dataAssignedToVariable P !! id self); [apply Hcmp|done].
Qed.
End valueCMP_call.

(** C2: when an expected value [e] is resolvable, from the memory if it has
    an entry for the field and from [currentValue] otherwise, [valueCMP]
    returns exactly one successor, the path with [e] recorded as the
    result, if the residual content is at least as long as [e] and begins
    with it, and the empty collection otherwise. *)
Theorem valueCMP_compares self pp acb carnivorous σ P m mem c e :
  paths σ !! pp = Some P →
  memory P = Some m →
  memories σ !! m = Some mem →
  dataAssignedToVariable P !! id self = Some c →
  mem !! id self = Some e ∨ (mem !! id self = None ∧ currentValue self = Some e) →
  (length e ≤ length c ∧ take (length e) c = e →
     valueCMP self (Some pp) acb carnivorous σ
     = (Return [pp], with_path σ pp (withResult P self e)))
  ∧ (¬ (length e ≤ length c ∧ take (length e) c = e) →
     valueCMP self (Some pp) acb carnivorous σ = (Return [], σ)).
Proof.
  intros Hpath Hmemory Hmem Hcontent Hres.
  rewrite (valueCMP_unfold self pp σ P m mem) by done.
  rewrite Hcontent, <- prefix_take.
  assert (match mem !! id self with
          | Some b => Some b
          | None => currentValue self
          end = Some e) as ->.
  { by destruct Hres as [->|[-> ->]]. }
  split; intros Hp; [by rewrite bool_decide_true|by rewrite bool_decide_false].
Qed.

Lemma valueCMP_compares_witness :
  valueCMP (ex_data (ex_raw 0 None) (Some [false])) (Some 1%positive) true false
    (ex_state [true; false; true] {[ 1%positive := [true; false] ]})
  = (Return [1%positive],
     with_path (ex_state [true; false; true] {[ 1%positive := [true; false] ]})
       1%positive
       (withResult (ex_path (Some 1%positive) [true; false; true])
          (ex_data (ex_raw 0 None) (Some [false])) [true; false])).
Proof.
  apply (valueCMP_compares (ex_data (ex_raw 0 None) (Some [false])) 1%positive
           true false
           (ex_state [true; false; true] {[ 1%positive := [true; false] ]})
           (ex_path (Some 1%positive) [true; false; true]) 1%positive
           {[ 1%positive := [true; false] ]} [true; false; true] [true; false]);
    [reflexivity | reflexivity | reflexivity | reflexivity
    | left; reflexivity | split; [simpl; lia | reflexivity]].
Defined.

(** C3: [valueCMP] raises its configuration error exactly when no expected
    value is resolvable, that is when [currentValue] is absent and the
    memory has no entry for the field; with a residual content assigned it
    raises nothing else, and a value that the content does not begin with
    yields the empty collection, not an exception. *)
Theorem valueCMP_configuration_error self pp acb carnivorous σ P m mem :
  paths σ !! pp = Some P →
  memory P = Some m →
  memories σ !! m = Some mem →
  (valueCMP self (Some pp) acb carnivorous σ
     = (Raise (Exception
          "Data '{0}' has no value defined in its definition domain"), σ)
   ↔ currentValue self = None ∧ mem !! id self = None)
  ∧ (∀ c, dataAssignedToVariable P !! id self = Some c →
       ((∃ x, (valueCMP self (Some pp) acb carnivorous σ).1 = Raise x)
        ↔ currentValue self = None ∧ mem !! id self = None)
       ∧ (∀ e,
            mem !! id self = Some e
            ∨ (mem !! id self = None ∧ currentValue self = Some e) →
            ¬ e `prefix_of` c →
            valueCMP self (Some pp) acb carnivorous σ = (Return [], σ))).
Proof.
  intros Hpath Hmemory Hmem.
  rewrite (valueCMP_unfold self pp σ P m mem) by done.
  split.
  - destruct (mem !! id self) as [b|], (currentValue self) as [v|];
      try destruct (dataAssignedToVariable P !! id self) as [c|];
      try case_bool_decide;
      (split; [intros ?|intros [??]]; by simplify_eq).
  - intros c ->. split.
    + destruct (mem !! id self) as [b|], (currentValue self) as [v|];
        try case_bool_decide; simpl;
        (split; [intros [??]|intros [??]]; simplify_eq; eauto).
    + intros e Hres Hp.
      assert (match mem !! id self with
              | Some b => Some b
              | None => currentValue self
              end = Some e) as ->.
      { by destruct Hres as [->|[-> ->]]. }
      by rewrite bool_decide_false.
Qed.

Lemma valueCMP_configuration_error_witness :
  valueCMP (ex_data (ex_raw 0 None) None) (Some 1%positive) true false
    (ex_state [true; false; true] ∅)
  = (Raise (Exception
       "Data '{0}' has no value defined in its definition domain"),
     ex_state [true; false; true] ∅)
  ∧ valueCMP (ex_data (ex_raw 0 None) (Some [false])) (Some 1%positive) true false
      (ex_state [true; false; true] ∅)
    = (Return [], ex_state [true; false; true] ∅).
Proof.
  split.
  - apply (valueCMP_configuration_error (ex_data (ex_raw 0 None) None) 1%positive
             true false (ex_state [true; false; true] ∅)
             (ex_path (Some 1%positive) [true; false; true]) 1%positive ∅);
      [reflexivity | reflexivity | reflexivity | split; reflexivity].
  - destruct (valueCMP_configuration_error
                (ex_data (ex_raw 0 None) (Some [false])) 1%positive
                true false (ex_state [true; false; true] ∅)
                (ex_path (Some 1%positive) [true; false; true]) 1%positive ∅
                eq_refl eq_refl eq_refl) as [_ Hcontent].
    destruct (Hcontent [true; false; true] eq_refl) as [_ Hmismatch].
    apply (Hmismatch [false]); [right; split; reflexivity|].
    intros [k Hk]. discriminate Hk.
Defined.

(** ** The generator *)

Section specialize_call.
Variables (self : Data) (pp : ref) (σ : State) (P : GenericPath).
Hypothesis Hpath : paths σ !! pp = Some P.

Lemma regenerate_unfold acb :
  regenerate self (Some pp) acb σ =
    (Return [pp],
     {| paths := <[pp := withResult P self (generate (dataType self) (rng σ)).1]>
                   (paths σ);
        memories := memories σ;
        rng := (generate (dataType self) (rng σ)).2 |}).
Proof.
  unfold regenerate. rewrite bind_run. unfold generateValue.
  destruct (generate (dataType self) (rng σ)) as [b g]. simpl.
  by rewrite bind_run, (addResult_run _ _ _ _ P).
Qed.

Variables (m : ref) (mem : Memory).
Hypothesis Hmemory : memory P = Some m.
Hypothesis Hmem : memories σ !! m = Some mem.

Lemma regenerateAndMemorize_unfold acb :
  regenerateAndMemorize self (Some pp) acb σ =
    (Return [pp],
     {| paths := <[pp := withResult P self (generate (dataType self) (rng σ)).1]>
                   (paths σ);
        memories := <[m := <[id self := (generate (dataType self) (rng σ)).1]> mem]>
                      (memories σ);
        rng := (generate (dataType self) (rng σ)).2 |}).
Proof.
  unfold regenerateAndMemorize. rewrite bind_run. unfold generateValue.
  destruct (generate (dataType self) (rng σ)) as [b g]. simpl.
  rewrite bind_run, (getMemory_run _ _ P), Hmemory by done.
  rewrite bind_run, (memorize_run _ _ _ _ mem) by done.
  by rewrite bind_run, (addResult_run _ _ _ _ P).
Qed.

Lemma use_unfold acb :
  use self (Some pp) acb σ =
    match mem !! id self with
    | Some v => (Return [pp], with_path σ pp (withResult P self v))
    | None =>
        match currentValue self with
        | Some v => (Return [pp], with_path σ pp (withResult P self v))
        | None => (Return [], σ)
        end
    end.
Proof.
  unfold use.
  rewrite bind_run, (getMemory_run _ _ P), Hmemory by done.
  rewrite bind_run, (hasValue_run _ _ _ mem) by done.
  destruct (mem !! id self) as [v|] eqn:Hv.
  - rewrite bool_decide_true by done.
    rewrite bind_run, (getValue_run _ _ _ mem v) by done.
    by rewrite bind_run, (addResult_run _ _ _ _ P).
  - rewrite bool_decide_false by (by intros [??]).
    destruct (currentValue self) as [v|]; [|done].
    by rewrite bind_run, (addResult_run _ _ _ _ P).
Qed.
End specialize_call.

(** C7: [use] returns the path with the memorized value recorded when the
    memory has an entry for the field, else the path with [currentValue]
    recorded when there is one, else the empty collection; it leaves the
    memories and the random source as they were, and nothing of the data
    type enters its outcome. *)
Theorem use_returns_available_value self pp acb σ P m mem :
  paths σ !! pp = Some P →
  memory P = Some m →
  memories σ !! m = Some mem →
  (∀ v, mem !! id self = Some v →
     use self (Some pp) acb σ
     = (Return [pp], with_path σ pp (withResult P self v)))
  ∧ (∀ v, mem !! id self = None → currentValue self = Some v →
     use self (Some pp) acb σ
     = (Return [pp], with_path σ pp (withResult P self v)))
  ∧ (mem !! id self = None → currentValue self = None →
     use self (Some pp) acb σ = (Return [], σ))
  ∧ memories (use self (Some pp) acb σ).2 = memories σ
  ∧ rng (use self (Some pp) acb σ).2 = rng σ
  ∧ (∀ t, use {| id := id self; dataType := t;
                 currentValue := currentValue self; svas := svas self |}
            (Some pp) acb σ
          = use self (Some pp) acb σ).
Proof.
  intros Hpath Hmemory Hmem.
  split_and!.
  - intros v Hv. by rewrite (use_unfold self pp σ P Hpath m mem), Hv.
  - intros v Hv Hcur. by rewrite (use_unfold self pp σ P Hpath m mem), Hv, Hcur.
  - intros Hv Hcur. by rewrite (use_unfold self pp σ P Hpath m mem), Hv, Hcur.
  - rewrite (use_unfold self pp σ P Hpath m mem) by done.
    by destruct (mem !! id self), (currentValue self).
  - rewrite (use_unfold self pp σ P Hpath m mem) by done.
    by destruct (mem !! id self), (currentValue self).
  - intros t. by rewrite !(use_unfold _ pp σ P Hpath m mem).
Qed.

Lemma use_returns_available_value_witness :
  use (ex_data (ex_raw 2 None) (Some [false])) (Some 1%positive) true
    (ex_state [] {[ 1%positive := [true; true] ]})
  = (Return [1%positive],
     with_path (ex_state [] {[ 1%positive := [true; true] ]}) 1%positive
       (withResult (ex_path (Some 1%positive) [])
          (ex_data (ex_raw 2 None) (Some [false])) [true; true])).
Proof.
  destruct (use_returns_available_value (ex_data (ex_raw 2 None) (Some [false]))
              1%positive true (ex_state [] {[ 1%positive := [true; true] ]})
              (ex_path (Some 1%positive) []) 1%positive
              {[ 1%positive := [true; true] ]} eq_refl eq_refl eq_refl)
    as [Hmemorized _].
  apply Hmemorized. reflexivity.
Defined.




(** ** Volatile primitives leave the memories alone *)

Lemma preserves_ret {A} (a : A) : preserves_memories (mret a : M A).
Proof. by intros σ. Qed.

Lemma preserves_raise {A} e : preserves_memories (raise e : M A).
Proof. by intros σ. Qed.

Lemma preserves_bind {A B} (f : M A) (k : A → M B) :
  preserves_memories f → (∀ a, preserves_memories (k a)) →
  preserves_memories (f ≫= k).
Proof.
  intros Hf Hk σ. rewrite bind_run. specialize (Hf σ).
  destruct (f σ) as [[a|e] σ1]; simpl in *; [|done].
  by rewrite Hk.
Qed.

Lemma preserves_readPath p : preserves_memories (readPath p).
Proof. intros σ. unfold readPath. by destruct (paths σ !! p). Qed.

Lemma preserves_addResult p v b : preserves_memories (addResult p v b).
Proof.
  apply preserves_bind; [apply preserves_readPath|]. by intros P σ.
Qed.

Lemma preserves_duplicate p : preserves_memories (duplicate p).
Proof.
  apply preserves_bind; [apply preserves_readPath|]. by intros P σ.
Qed.

Lemma preserves_getData p v : preserves_memories (getDataAssignedToVariable p v).
Proof.
  apply preserves_bind; [apply preserves_readPath|].
  intros P. apply preserves_ret.
Qed.

Lemma preserves_generateValue v : preserves_memories (generateValue v).
Proof.
  intros σ. unfold generateValue.
  by destruct (generate (dataType v) (rng σ)).
Qed.

Lemma preserves_domainCMP_for self pp c sizes :
  ∀ results, preserves_memories (domainCMP_for self pp c sizes results).
Proof.
  induction sizes as [|size sizes IH]; intros results; [apply preserves_ret|].
  simpl. destruct (_ || _); [|apply IH].
  apply preserves_bind; [apply preserves_duplicate|]. intros q.
  apply preserves_bind; [apply preserves_addResult|]. intros _. apply IH.
Qed.

Lemma preserves_domainCMP self path acb carnivorous :
  preserves_memories (domainCMP self path acb carnivorous).
Proof.
  unfold domainCMP. destruct path as [pp|]; [|apply preserves_raise].
  apply preserves_bind; [apply preserves_getData|].
  intros [c|]; [|apply preserves_raise].
  destruct (size (dataType self)) as [mn mx].
  case_bool_decide; [apply preserves_ret|].
  destruct carnivorous; apply preserves_domainCMP_for.
Qed.

Lemma preserves_regenerate self path acb :
  preserves_memories (regenerate self path acb).
Proof.
  unfold regenerate. destruct path as [pp|]; [|apply preserves_raise].
  apply preserves_bind; [apply preserves_generateValue|]. intros b.
  apply preserves_bind; [apply preserves_addResult|]. intros _.
  apply preserves_ret.
Qed.

Lemma run_calls_memories self calls :
  ∀ σ, memories (run_calls self calls σ) = memories σ.
Proof.
  induction calls as [|call calls IH]; intros σ; [done|].
  simpl. rewrite IH.
  destruct call; [apply preserves_domainCMP|apply preserves_regenerate].
Qed.

(** C8: [domainCMP] and [regenerate] never write to a memory: after any
    sequence of such calls, on any paths, a memory that had no entry for
    the field has none, and indeed every memory is what it was. *)
Theorem volatile_calls_leave_memory self calls σ m mem :
  memories σ !! m = Some mem →
  mem !! id self = None →
  (∃ mem', memories (run_calls self calls σ) !! m = Some mem'
           ∧ mem' !! id self = None)
  ∧ memories (run_calls self calls σ) = memories σ
  ∧ (∀ p acb carnivorous,
       memories (domainCMP self p acb carnivorous σ).2 = memories σ)
  ∧ (∀ p acb, memories (regenerate self p acb σ).2 = memories σ).
Proof.
  intros Hm Hentry. rewrite run_calls_memories. split_and!; [eauto|done| |].
  - intros p acb carnivorous. apply preserves_domainCMP.
  - intros p acb. apply preserves_regenerate.
Qed.

Lemma volatile_calls_leave_memory_witness :
  memories (run_calls (ex_data (ex_raw 0 None) None)
              [call_domainCMP (Some 1%positive) true false;
               call_regenerate (Some 2%positive) true;
               call_domainCMP (Some 2%positive) true true]
              (ex_state [true; false] ∅))
  = memories (ex_state [true; false] ∅).
Proof.
  apply (volatile_calls_leave_memory (ex_data (ex_raw 0 None) None)
           [call_domainCMP (Some 1%positive) true false;
            call_regenerate (Some 2%positive) true;
            call_domainCMP (Some 2%positive) true true]
           (ex_state [true; false] ∅) 1%positive ∅); reflexivity.
Defined.

(** ** Definedness *)

(** C9, as the code has it: [isDefined] raises when the path is [None];
    with a [currentValue] it returns true without looking at the memory,
    attached or not; without one it raises when the path has no memory
    attached and otherwise returns whether the memory has an entry for the
    field.  So it returns true exactly when [currentValue] is present or
    the attached memory has an entry. *)
Theorem isDefined_cases self pp σ P :
  paths σ !! pp = Some P →
  isDefined self None σ = (Raise (Exception "Path cannot be None"), σ)
  ∧ (is_Some (currentValue self) → isDefined self (Some pp) σ = (Return true, σ))
  ∧ (currentValue self = None → memory P = None →
     isDefined self (Some pp) σ
     = (Raise (Exception "Provided path has no memory attached."), σ))
  ∧ (∀ m mem,
       currentValue self = None → memory P = Some m →
       memories σ !! m = Some mem →
       isDefined self (Some pp) σ
       = (Return (bool_decide (is_Some (mem !! id self))), σ))
  ∧ (∀ m mem,
       memory P = Some m → memories σ !! m = Some mem →
       (isDefined self (Some pp) σ = (Return true, σ)
        ↔ is_Some (currentValue self) ∨ is_Some (mem !! id self))
       ∧ (isDefined self (Some pp) σ = (Return false, σ)
          ↔ ¬ (is_Some (currentValue self) ∨ is_Some (mem !! id self)))).
Proof.
  intros Hpath.
  assert (∀ m mem, currentValue self = None → memory P = Some m →
            memories σ !! m = Some mem →
            isDefined self (Some pp) σ
            = (Return (bool_decide (is_Some (mem !! id self))), σ)) as Hfourth.
  { intros m mem Hcur Hmemory Hmem. unfold isDefined.
    rewrite bool_decide_false by (rewrite Hcur; by intros ?).
    rewrite bind_run, (getMemory_run _ _ P), Hmemory by done.
    by rewrite (hasValue_run _ _ _ mem). }
  assert (is_Some (currentValue self) →
          isDefined self (Some pp) σ = (Return true, σ)) as Hsecond.
  { intros [v Hv]. unfold isDefined. by rewrite bool_decide_true by by rewrite Hv. }
  split_and!; [done|done| |done|].
  - intros Hcur Hmemory. unfold isDefined.
    rewrite bool_decide_false by (rewrite Hcur; by intros ?).
    by rewrite bind_run, (getMemory_run _ _ P), Hmemory.
  - intros m mem Hmemory Hmem.
    destruct (currentValue self) as [v|] eqn:Hcur.
    + rewrite Hsecond by done. split; split; try done.
      * intros _. by left.
      * intros Hno. destruct Hno. by left.
    + rewrite (Hfourth m mem) by done.
      case_bool_decide as Hentry; split; split; try done.
      * intros _. by right.
      * intros Hno. destruct Hno. by right.
      * intros [[? [=]]|?]; done.
      * intros _ [[? [=]]|?]; done.
Qed.

Lemma isDefined_cases_witness :
  isDefined (ex_data (ex_raw 0 None) None) (Some 1%positive)
    (ex_state [] {[ 1%positive := [true] ]})
  = (Return true, ex_state [] {[ 1%positive := [true] ]}).
Proof.
  destruct (isDefined_cases (ex_data (ex_raw 0 None) None) 1%positive
              (ex_state [] {[ 1%positive := [true] ]})
              (ex_path (Some 1%positive) []) eq_refl)
    as (_ & _ & _ & Hentry & _).
  exact (Hentry 1%positive {[ 1%positive := [true] ]} eq_refl eq_refl eq_refl).
Defined.

(** C9 as stated fails: on a path with no memory attached [isDefined]
    returns true, and raises nothing, when the data has a [currentValue]. *)
Lemma isDefined_without_memory_returns :
  paths (ex_state_no_memory []) !! 1%positive = Some (ex_path None [])
  ∧ memory (ex_path None []) = None
  ∧ isDefined (ex_data (ex_raw 0 None) (Some [true])) (Some 1%positive)
      (ex_state_no_memory [])
    = (Return true, ex_state_no_memory []).
Proof. split_and!; vm_compute; reflexivity. Qed.


(** * Further properties of the methods *)

(** ** One statement for both entry points of the search *)

Lemma search_for_nothing_accepted learning self pp c sizes :
  ∀ results σ,
    filter (λ size, accepts self c size) sizes = [] →
    search_for learning self pp c sizes results σ = (Return results, σ).
Proof.
  induction sizes as [|size sizes IH]; intros results σ Hnone; [done|].
  rewrite filter_cons in Hnone. simpl.
  destruct (accepts self c size); simpl in Hnone; [done|]. by apply IH.
Qed.

Section search_both.
Variables (learning : bool) (self : Data) (pp : ref) (σ : State).
Variables (P : GenericPath) (c : bitarray) (m : ref) (mem : Memory).
Hypothesis Hpath : paths σ !! pp = Some P.
Hypothesis Hcontent : dataAssignedToVariable P !! id self = Some c.
Hypothesis Hlearning :
  learning = true → memory P = Some m ∧ memories σ !! m = Some mem.

Lemma search_unfold acb carnivorous :
  search learning self (Some pp) acb carnivorous σ =
    if bool_decide (length c < (size (dataType self)).1) then (Return [], σ)
    else
      search_for learning self pp c
        (Z.of_nat <$>
           descending
             (search_bounds (size (dataType self)).1 (size (dataType self)).2
                (length c) carnivorous).1
             (search_bounds (size (dataType self)).1 (size (dataType self)).2
                (length c) carnivorous).2)
        [] σ.
Proof.
  destruct (size (dataType self)) as [mn mx] eqn:Hsize. simpl.
  unfold search. destruct learning.
  - rewrite (learn_unfold self pp σ P c mn mx) by done.
    case_bool_decide; [done|]. by destruct (search_bounds _ _ _ _).
  - rewrite (domainCMP_unfold self pp σ P c mn mx) by done.
    case_bool_decide; [done|]. by destruct (search_bounds _ _ _ _).
Qed.

(** Every fact about one call of the search, over [call_lengths]. *)
Lemma search_call acb carnivorous :
  ∃ succs σ',
    search learning self (Some pp) acb carnivorous σ = (Return succs, σ')
    ∧ Forall2 (λ l L, paths σ' !! l = Some (withResult P self (take L c)))
        succs (call_lengths self c carnivorous)
    ∧ NoDup succs
    ∧ (∀ l, l ∈ succs → paths σ !! l = None)
    ∧ (∀ l, is_Some (paths σ !! l) → paths σ' !! l = paths σ !! l)
    ∧ rng σ' = rng σ
    ∧ memories σ' =
        (if learning then
           match last (call_lengths self c carnivorous) with
           | Some L => <[m := <[id self := take L c]> mem]> (memories σ)
           | None => memories σ
           end
         else memories σ)
    ∧ (succs = [] → σ' = σ).
Proof.
  rewrite search_unfold. unfold call_lengths.
  case_bool_decide as Hlen.
  { exists [], σ. split_and!; try done; try constructor.
    - by intros l ?%elem_of_nil.
    - by destruct learning. }
  set (hi := (search_bounds _ _ _ _).1). set (lo := (search_bounds _ _ _ _).2).
  destruct (search_for_lengths self pp σ P c Hpath learning m mem hi lo Hlearning)
    as (succs & σ' & Hrun & Hall & Hnd & Hnew & Hold & Hrng & Hmems).
  exists succs, σ'. split_and!; try done.
  intros ->. apply Forall2_nil_inv_l in Hall.
  unfold accepted_lengths in Hall.
  rewrite (search_for_nothing_accepted learning self pp c) in Hrun.
  - by injection Hrun as <-.
  - by rewrite filter_accepts_nat, Hall.
Qed.
End search_both.

Lemma elem_of_call_lengths self c carnivorous L :
  L ∈ call_lengths self c carnivorous ↔
  (size (dataType self)).1 ≤ length c
  ∧ (L = 0 ∨ canParse (dataType self) (take L c) = true)
  ∧ if carnivorous then L = length c
    else (size (dataType self)).1 ≤ L ≤ length c
         ∧ ∀ M, (size (dataType self)).2 = Some M → L ≤ M.
Proof.
  unfold call_lengths. case_bool_decide as Hlen.
  { split; [by intros ?%elem_of_nil|]. intros [? _]. lia. }
  rewrite elem_of_accepted_lengths. unfold search_bounds.
  destruct carnivorous; simpl.
  - split; [intros [? ?]|intros (? & ? & ->)]; split_and!; (done || lia).
  - destruct (size (dataType self)).2 as [M|]; simpl.
    + split.
      * intros [[? ?] ?]. split_and!; try done; try lia. intros ? [= <-]. lia.
      * intros (? & ? & [? ?] & HM). specialize (HM M eq_refl).
        split_and!; (done || lia).
    + split.
      * intros [[? ?] ?]. split_and!; try done; lia.
      * intros (? & ? & [? ?] & _). split_and!; (done || lia).
Qed.

Lemma descending_strongly_sorted hi lo : StronglySorted (λ a b, b < a) (descending hi lo).
Proof.
  induction hi as [|hi IH].
  - unfold descending. destruct lo as [|lo]; simpl; repeat constructor.
  - destruct (decide (lo ≤ S hi)) as [Hle|Hgt].
    + replace (descending (S hi) lo) with (S hi :: descending hi lo).
      * constructor; [done|]. apply Forall_forall.
        intros L HL%elem_of_descending. lia.
      * unfold descending.
        replace (S (S hi) - lo) with (S hi - lo + 1) by lia.
        rewrite seq_app, reverse_app. simpl. do 2 f_equal. lia.
    + unfold descending. replace (S (S hi) - lo) with 0 by lia. constructor.
Qed.

Lemma filter_strongly_sorted {A} (R : relation A) (Q : A → Prop)
    `{!∀ x, Decision (Q x)} (l : list A) :
  StronglySorted R l → StronglySorted R (filter Q l).
Proof.
  induction 1 as [|x l Hl IH Hx]; [constructor|].
  rewrite filter_cons. destruct (decide (Q x)); [|done].
  constructor; [done|]. rewrite Forall_forall in Hx |- *.
  intros y [_ Hy]%list_elem_of_filter. by apply Hx.
Qed.

Lemma strongly_sorted_lookup {A} (R : relation A) (l : list A) i j x y :
  StronglySorted R l → i < j → l !! i = Some x → l !! j = Some y → R x y.
Proof.
  intros Hl. revert i j. induction Hl as [|z l Hl IH Hz]; intros i j Hij Hi Hj.
  { by rewrite lookup_nil in Hi. }
  destruct j as [|j]; [lia|]. simpl in Hj.
  destruct i as [|i]; simpl in Hi.
  - injection Hi as ->. rewrite Forall_forall in Hz.
    apply Hz, list_elem_of_lookup. eauto.
  - apply (IH i j); [lia|done|done].
Qed.

Lemma call_lengths_strongly_sorted self c carnivorous :
  StronglySorted (λ a b, b < a) (call_lengths self c carnivorous).
Proof.
  unfold call_lengths. case_bool_decide; [constructor|].
  apply filter_strongly_sorted, descending_strongly_sorted.
Qed.

Lemma recorded_functional σ l self b1 b2 :
  recorded σ l self b1 → recorded σ l self b2 → b1 = b2.
Proof. intros (P1 & HP1 & Hb1) (P2 & HP2 & Hb2). congruence. Qed.

(** ** What the search returns *)

(** X1: every successor of [domainCMP] or [learn] records a prefix of the
    residual content that is empty or accepted by [canParse]; without the
    carnivorous flag it has at least the declared minimum of bits, with
    the flag it is the whole content. *)
Theorem search_results_sound learning self pp acb carnivorous σ P c m mem :
  paths σ !! pp = Some P →
  dataAssignedToVariable P !! id self = Some c →
  (learning = true → memory P = Some m ∧ memories σ !! m = Some mem) →
  ∃ succs σ',
    search learning self (Some pp) acb carnivorous σ = (Return succs, σ')
    ∧ ∀ l, l ∈ succs →
        ∃ b, recorded σ' l self b
             ∧ b `prefix_of` c
             ∧ (b = [] ∨ canParse (dataType self) b = true)
             ∧ if carnivorous then b = c
               else (size (dataType self)).1 ≤ length b.
Proof.
  intros Hpath Hcontent Hlearning.
  destruct (search_call learning self pp σ P c m mem Hpath Hcontent Hlearning
              acb carnivorous) as (succs & σ' & Hrun & Hall & _).
  exists succs, σ'. split; [done|]. intros l Hl.
  destruct (successors_recorded _ _ _ _ _ _ _ Hall Hl) as (L & HL & HP).
  apply elem_of_call_lengths in HL as (Hmin & Hacc & Hrange).
  exists (take L c). split; [by eapply withResult_recorded|].
  split; [exists (drop L c); by rewrite take_drop|]. split.
  - destruct Hacc as [->|?]; [by left|by right].
  - destruct carnivorous.
    + subst L. by rewrite firstn_all.
    + rewrite length_take. lia.
Qed.

Lemma search_results_sound_witness :
  ∃ succs σ',
    search true (ex_data (ex_type 1 (Some 3)) None) (Some 1%positive) true false
      (ex_state [true; false; true; true] ∅) = (Return succs, σ')
    ∧ ∀ l, l ∈ succs →
        ∃ b, recorded σ' l (ex_data (ex_type 1 (Some 3)) None) b
             ∧ b `prefix_of` [true; false; true; true]
             ∧ (b = [] ∨ canParse (ex_type 1 (Some 3)) b = true)
             ∧ 1 ≤ length b.
Proof.
  apply (search_results_sound true (ex_data (ex_type 1 (Some 3)) None) 1%positive
           true false (ex_state [true; false; true; true] ∅)
           (ex_path (Some 1%positive) [true; false; true; true])
           [true; false; true; true] 1%positive ∅);
    [reflexivity | reflexivity | intros _; split; reflexivity].
Defined.



(** X3: the successors come longest first: of two successors of one call of
    [domainCMP] or [learn], the one later in the returned list records
    strictly fewer bits. *)
Theorem search_results_descending learning self pp acb carnivorous σ P c m mem :
  paths σ !! pp = Some P →
  dataAssignedToVariable P !! id self = Some c →
  (learning = true → memory P = Some m ∧ memories σ !! m = Some mem) →
  ∃ succs σ',
    search learning self (Some pp) acb carnivorous σ = (Return succs, σ')
    ∧ ∀ i j l1 l2 b1 b2,
        i < j → succs !! i = Some l1 → succs !! j = Some l2 →
        recorded σ' l1 self b1 → recorded σ' l2 self b2 →
        length b2 < length b1.
Proof.
  intros Hpath Hcontent Hlearning.
  destruct (search_call learning self pp σ P c m mem Hpath Hcontent Hlearning
              acb carnivorous) as (succs & σ' & Hrun & Hall & _).
  exists succs, σ'. split; [done|]. intros i j l1 l2 b1 b2 Hij Hi Hj Hb1 Hb2.
  destruct (Forall2_lookup_l _ _ _ _ _ Hall Hi) as (L1 & HL1 & HP1).
  destruct (Forall2_lookup_l _ _ _ _ _ Hall Hj) as (L2 & HL2 & HP2).
  rewrite (recorded_functional _ _ _ _ _ Hb1 (withResult_recorded _ _ _ _ _ HP1)).
  rewrite (recorded_functional _ _ _ _ _ Hb2 (withResult_recorded _ _ _ _ _ HP2)).
  pose proof (strongly_sorted_lookup _ _ _ _ _ _
                (call_lengths_strongly_sorted self c carnivorous) Hij HL1 HL2)
    as Hlt. simpl in Hlt.
  assert (L1 ≤ length c).
  { assert (L1 ∈ call_lengths self c carnivorous) as HL
      by (apply list_elem_of_lookup; eauto).
    apply elem_of_call_lengths in HL as (_ & _ & HL).
    destruct carnivorous; lia. }
  rewrite !length_take. lia.
Qed.

Lemma search_results_descending_witness :
  ∃ succs σ',
    search true (ex_data (ex_raw 0 None) None) (Some 1%positive) true false
      (ex_state [true; false] ∅) = (Return succs, σ')
    ∧ ∀ i j l1 l2 b1 b2,
        i < j → succs !! i = Some l1 → succs !! j = Some l2 →
        recorded σ' l1 (ex_data (ex_raw 0 None) None) b1 →
        recorded σ' l2 (ex_data (ex_raw 0 None) None) b2 →
        length b2 < length b1.
Proof.
  apply (search_results_descending true (ex_data (ex_raw 0 None) None) 1%positive
           true false (ex_state [true; false] ∅)
           (ex_path (Some 1%positive) [true; false]) [true; false] 1%positive ∅);
    [reflexivity | reflexivity | intros _; split; reflexivity].
Defined.





(** X6: a declared maximum below the declared minimum leaves no length to
    try: without the carnivorous flag [domainCMP] and [learn] return
    nothing and leave the store as it was, however long the content and
    whatever [canParse] accepts. *)
Theorem inverted_bounds_match_nothing learning self pp acb σ P c m mem M :
  paths σ !! pp = Some P →
  dataAssignedToVariable P !! id self = Some c →
  (learning = true → memory P = Some m ∧ memories σ !! m = Some mem) →
  (size (dataType self)).2 = Some M →
  M < (size (dataType self)).1 →
  search learning self (Some pp) acb false σ = (Return [], σ).
Proof.
  intros Hpath Hcontent Hlearning HM Hinv.
  destruct (search_call learning self pp σ P c m mem Hpath Hcontent Hlearning
              acb false) as (succs & σ' & Hrun & Hall & _ & _ & _ & _ & _ & Hnil).
  assert (call_lengths self c false = []) as Hnone.
  { destruct (call_lengths self c false) as [|L ?] eqn:HL; [done|].
    assert (L ∈ call_lengths self c false) as Hin by (rewrite HL; left).
    apply elem_of_call_lengths in Hin as (_ & _ & [? ?] & Hmax).
    specialize (Hmax M HM). lia. }
  rewrite Hnone in Hall. apply Forall2_nil_inv_r in Hall.
  by rewrite Hrun, (Hnil Hall), Hall.
Qed.

Lemma inverted_bounds_match_nothing_witness :
  search true (ex_data (ex_raw 3 (Some 2)) None) (Some 1%positive) true false
    (ex_state [true; false; true; true] ∅)
  = (Return [], ex_state [true; false; true; true] ∅).
Proof.
  apply (inverted_bounds_match_nothing true (ex_data (ex_raw 3 (Some 2)) None)
           1%positive true (ex_state [true; false; true; true] ∅)
           (ex_path (Some 1%positive) [true; false; true; true])
           [true; false; true; true] 1%positive ∅ 2);
    [reflexivity | reflexivity | intros _; split; reflexivity
    | reflexivity | simpl; lia].
Defined.

(** ** [learn] against [domainCMP] *)

Lemma search_for_paths_agree self pp c P m sizes :
  ∀ results σd σl mem,
    paths σl = paths σd → rng σl = rng σd →
    paths σd !! pp = Some P →
    memory P = Some m → memories σl !! m = Some mem →
    ∃ succs σd' σl',
      search_for false self pp c sizes results σd = (Return succs, σd')
      ∧ search_for true self pp c sizes results σl = (Return succs, σl')
      ∧ paths σl' = paths σd' ∧ rng σl' = rng σd'.
Proof.
  induction sizes as [|size sizes IH];
    intros results σd σl mem Hpaths Hrng Hpp HmP Hm.
  { by exists results, σd, σl. }
  simpl. destruct (accepts self c size); [|by eapply IH].
  assert (paths σl !! pp = Some P) as Hpp' by by rewrite Hpaths.
  pose proof (newRef_fresh (paths σd)) as Hfresh.
  assert (newRef (paths σd) ≠ pp) as Hne by congruence.
  rewrite !bind_run, !(duplicate_run _ _ P) by done.
  rewrite !bind_run, !(addResult_run _ _ _ _ P)
    by (simpl; rewrite ?Hpaths; apply lookup_insert_eq).
  simpl. rewrite !bind_run.
  rewrite (getMemory_run _ _ (withResult P self (slice_to c size)))
    by (simpl; apply lookup_insert_eq).
  simpl. rewrite HmP, (memorize_run _ _ _ _ mem) by done.
  simpl. rewrite Hpaths, Hrng.
  eapply IH; simpl; try done.
  - by rewrite !lookup_insert_ne.
  - apply lookup_insert_eq.
Qed.

(** X7: [learn] explores exactly as [domainCMP] does: on a path with a
    memory attached both return the same successor references and leave
    the same path objects and the same random source; memorizing is the
    whole difference, and what the memory held before has no influence on
    the successors. *)
Theorem learn_explores_as_domainCMP self pp acb carnivorous σ P m mem c :
  paths σ !! pp = Some P →
  memory P = Some m →
  memories σ !! m = Some mem →
  dataAssignedToVariable P !! id self = Some c →
  ∃ succs σd σl,
    domainCMP self (Some pp) acb carnivorous σ = (Return succs, σd)
    ∧ learn self (Some pp) acb carnivorous σ = (Return succs, σl)
    ∧ paths σl = paths σd
    ∧ rng σl = rng σd.
Proof.
  intros Hpath HmP Hm Hcontent.
  destruct (size (dataType self)) as [mn mx] eqn:Hsize.
  rewrite (domainCMP_unfold self pp σ P c mn mx),
          (learn_unfold self pp σ P c mn mx) by done.
  case_bool_decide; [by exists [], σ, σ|].
  destruct (search_bounds mn mx (length c) carnivorous) as [hi lo].
  by eapply search_for_paths_agree.
Qed.

Lemma learn_explores_as_domainCMP_witness :
  ∃ succs σd σl,
    domainCMP (ex_data (ex_raw 0 None) None) (Some 1%positive) true false
      (ex_state [true; false] {[ 1%positive := [true] ]}) = (Return succs, σd)
    ∧ learn (ex_data (ex_raw 0 None) None) (Some 1%positive) true false
        (ex_state [true; false] {[ 1%positive := [true] ]}) = (Return succs, σl)
    ∧ paths σl = paths σd
    ∧ rng σl = rng σd.
Proof.
  apply (learn_explores_as_domainCMP (ex_data (ex_raw 0 None) None) 1%positive
           true false (ex_state [true; false] {[ 1%positive := [true] ]})
           (ex_path (Some 1%positive) [true; false]) 1%positive
           {[ 1%positive := [true] ]} [true; false]);
    reflexivity.
Defined.

(** X8: [learn] writes one entry of one memory: every other memory object
    is as before, and in the memory attached to the input path every
    entry but the one of the field is as before. *)
Theorem learn_writes_one_entry self pp acb carnivorous σ P m mem c :
  paths σ !! pp = Some P →
  memory P = Some m →
  memories σ !! m = Some mem →
  dataAssignedToVariable P !! id self = Some c →
  ∃ succs σ' mem',
    learn self (Some pp) acb carnivorous σ = (Return succs, σ')
    ∧ memories σ' !! m = Some mem'
    ∧ (∀ j, j ≠ id self → mem' !! j = mem !! j)
    ∧ (∀ m', m' ≠ m → memories σ' !! m' = memories σ !! m').
Proof.
  intros Hpath HmP Hm Hcontent.
  destruct (search_call true self pp σ P c m mem Hpath Hcontent (λ _, conj HmP Hm)
              acb carnivorous)
    as (succs & σ' & Hrun & _ & _ & _ & _ & _ & Hmems & _).
  unfold search in Hrun. rewrite Hrun. revert Hmems.
  destruct (last (call_lengths self c carnivorous)) as [L|]; intros Hmems.
  - exists succs, σ', (<[id self := take L c]> mem). rewrite Hmems.
    split_and!; [done|apply lookup_insert_eq| |].
    + intros j Hj. by rewrite lookup_insert_ne.
    + intros m' Hm'. by rewrite lookup_insert_ne.
  - exists succs, σ', mem. by rewrite Hmems.
Qed.

Lemma learn_writes_one_entry_witness :
  ∃ succs σ' mem',
    learn (ex_data (ex_raw 0 None) None) (Some 1%positive) true false
      (ex_state [true; false] {[ 2%positive := [true] ]}) = (Return succs, σ')
    ∧ memories σ' !! 1%positive = Some mem'
    ∧ (∀ j, j ≠ 1%positive → mem' !! j
                             = ({[ 2%positive := [true] ]} : Memory) !! j)
    ∧ (∀ m', m' ≠ 1%positive →
         memories σ' !! m'
         = memories (ex_state [true; false] {[ 2%positive := [true] ]}) !! m').
Proof.
  apply (learn_writes_one_entry (ex_data (ex_raw 0 None) None) 1%positive
           true false (ex_state [true; false] {[ 2%positive := [true] ]})
           (ex_path (Some 1%positive) [true; false]) 1%positive
           {[ 2%positive := [true] ]} [true; false]);
    reflexivity.
Defined.

(** ** More on the exact matcher *)

(** X9: whatever it is given, [valueCMP] writes to no memory, draws nothing
    from the random source and creates no path object; it returns either
    nothing or the one path it was given, and unless it returns that path
    it leaves the whole store as it was. *)
Theorem valueCMP_footprint self path acb carnivorous σ :
  memories (valueCMP self path acb carnivorous σ).2 = memories σ
  ∧ rng (valueCMP self path acb carnivorous σ).2 = rng σ
  ∧ dom (paths (valueCMP self path acb carnivorous σ).2) = dom (paths σ)
  ∧ ((∃ e, (valueCMP self path acb carnivorous σ).1 = Raise e)
     ∨ (valueCMP self path acb carnivorous σ).1 = Return []
     ∨ (∃ p, path = Some p
             ∧ (valueCMP self path acb carnivorous σ).1 = Return [p]))
  ∧ ((∀ p, (valueCMP self path acb carnivorous σ).1 ≠ Return [p]) →
     (valueCMP self path acb carnivorous σ).2 = σ).
Proof.
  destruct path as [pp|]; [|split_and!; eauto].
  destruct (paths σ !! pp) as [P|] eqn:Hpath.
  2:{ assert (valueCMP self (Some pp) acb carnivorous σ
              = (Raise InvalidReference, σ)) as ->.
      { unfold valueCMP, getMemory, readPath. rewrite !bind_run. by rewrite Hpath. }
      split_and!; eauto. }
  destruct (memory P) as [m|] eqn:HmP.
  2:{ assert (valueCMP self (Some pp) acb carnivorous σ
              = (Raise (Exception "No memory available"), σ)) as ->.
      { unfold valueCMP. by rewrite bind_run, (getMemory_run _ _ P), HmP. }
      split_and!; eauto. }
  destruct (memories σ !! m) as [mem|] eqn:Hm.
  2:{ assert (valueCMP self (Some pp) acb carnivorous σ
              = (Raise InvalidReference, σ)) as ->.
      { unfold valueCMP. rewrite bind_run, (getMemory_run _ _ P), HmP by done.
        unfold hasValue, readMemory. rewrite !bind_run. by rewrite Hm. }
      split_and!; eauto. }
  rewrite (valueCMP_unfold self pp σ P m mem) by done.
  destruct (match mem !! id self with Some b => Some b | None => currentValue self end)
    as [e|]; [|split_and!; eauto].
  destruct (dataAssignedToVariable P !! id self) as [c|]; [|split_and!; eauto].
  case_bool_decide; [|split_and!; eauto].
  simpl. split_and!; [done|done| |eauto|].
  - apply dom_insert_lookup_L. eauto.
  - intros Hno. by destruct (Hno pp).
Qed.

(** X10: the order of the checks of [valueCMP]: a path without a memory is
    refused with "No memory available" even when the data has a
    [currentValue] that the content begins with, and a missing residual
    content is reported only once an expected value has been found. *)
Theorem valueCMP_error_precedence self pp acb carnivorous σ P :
  paths σ !! pp = Some P →
  (memory P = None →
     valueCMP self (Some pp) acb carnivorous σ
     = (Raise (Exception "No memory available"), σ))
  ∧ (∀ m mem,
       memory P = Some m → memories σ !! m = Some mem →
       dataAssignedToVariable P !! id self = None →
       valueCMP self (Some pp) acb carnivorous σ
       = if bool_decide (is_Some (mem !! id self) ∨ is_Some (currentValue self))
         then (Raise (Exception "No data assigned to the variable"), σ)
         else (Raise (Exception
                 "Data '{0}' has no value defined in its definition domain"), σ)).
Proof.
  intros Hpath. split.
  - intros HmP. unfold valueCMP.
    by rewrite bind_run, (getMemory_run _ _ P), HmP.
  - intros m mem HmP Hm Hcontent.
    rewrite (valueCMP_unfold self pp σ P m mem), Hcontent by done.
    destruct (mem !! id self) as [b|], (currentValue self) as [v|];
      case_bool_decide as Hb; try done; exfalso.
    + apply Hb. left. eauto.
    + apply Hb. left. eauto.
    + apply Hb. right. eauto.
    + destruct Hb as [[? [=]]|[? [=]]].
Qed.

Lemma valueCMP_error_precedence_witness :
  valueCMP (ex_data (ex_raw 0 None) (Some [true])) (Some 1%positive) true false
    (ex_state_no_memory [true; false])
  = (Raise (Exception "No memory available"), ex_state_no_memory [true; false]).
Proof.
  apply (valueCMP_error_precedence (ex_data (ex_raw 0 None) (Some [true]))
           1%positive true false (ex_state_no_memory [true; false])
           (ex_path None [true; false])); reflexivity.
Defined.

(** X11: [valueCMP] is idempotent: called again on the store it left, it
    returns the same outcome and changes nothing. *)
Theorem valueCMP_idempotent self pp acb carnivorous σ P m mem :
  paths σ !! pp = Some P →
  memory P = Some m →
  memories σ !! m = Some mem →
  valueCMP self (Some pp) acb carnivorous
    (valueCMP self (Some pp) acb carnivorous σ).2
  = valueCMP self (Some pp) acb carnivorous σ.
Proof.
  intros Hpath HmP Hm.
  rewrite (valueCMP_unfold self pp σ P m mem) by done.
  destruct (match mem !! id self with Some b => Some b | None => currentValue self end)
    as [e|] eqn:He; cbn [snd].
  2:{ by rewrite (valueCMP_unfold self pp σ P m mem), He. }
  destruct (dataAssignedToVariable P !! id self) as [c|] eqn:Hc; cbn [snd].
  2:{ by rewrite (valueCMP_unfold self pp σ P m mem), He, Hc. }
  case_bool_decide as Hp; cbn [snd].
  2:{ by rewrite (valueCMP_unfold self pp σ P m mem), He, Hc, bool_decide_false. }
  rewrite (valueCMP_unfold self pp (with_path σ pp (withResult P self e))
             (withResult P self e) m mem)
    by (done || apply lookup_insert_eq).
  rewrite He. cbn [withResult dataAssignedToVariable]. rewrite Hc, bool_decide_true by done.
  unfold with_path, withResult. simpl. by rewrite !insert_insert_eq.
Qed.

Lemma valueCMP_idempotent_witness :
  valueCMP (ex_data (ex_raw 0 None) (Some [true])) (Some 1%positive) true false
    (valueCMP (ex_data (ex_raw 0 None) (Some [true])) (Some 1%positive) true false
       (ex_state [true; false] ∅)).2
  = valueCMP (ex_data (ex_raw 0 None) (Some [true])) (Some 1%positive) true false
      (ex_state [true; false] ∅).
Proof.
  apply (valueCMP_idempotent (ex_data (ex_raw 0 None) (Some [true])) 1%positive
           true false (ex_state [true; false] ∅)
           (ex_path (Some 1%positive) [true; false]) 1%positive ∅); reflexivity.
Defined.

(** ** How the methods compose *)

(** X12: what [regenerateAndMemorize] generated is what [use] emits
    afterwards: on any path attached to the same memory, the same one or
    another, [use] returns that path with the generated value recorded,
    whatever the [currentValue] of the data, and memorizes or draws
    nothing more. *)
Theorem use_after_regenerateAndMemorize self p q acb acb' σ P Q m mem :
  paths σ !! p = Some P → memory P = Some m →
  memories σ !! m = Some mem →
  paths σ !! q = Some Q → memory Q = Some m →
  ∃ σ1 σ2,
    regenerateAndMemorize self (Some p) acb σ = (Return [p], σ1)
    ∧ use self (Some q) acb' σ1 = (Return [q], σ2)
    ∧ recorded σ2 q self (generate (dataType self) (rng σ)).1
    ∧ memories σ2 = memories σ1
    ∧ rng σ2 = rng σ1.
Proof.
  intros Hp HmP Hm Hq HmQ.
  rewrite (regenerateAndMemorize_unfold self p σ P Hp m mem) by done.
  set (b := (generate (dataType self) (rng σ)).1).
  set (σ1 := {| paths := <[p := withResult P self b]> (paths σ);
                memories := <[m := <[id self := b]> mem]> (memories σ);
                rng := (generate (dataType self) (rng σ)).2 |}).
  assert (∃ Q', paths σ1 !! q = Some Q' ∧ memory Q' = Some m) as (Q' & HQ' & HmQ').
  { destruct (decide (p = q)) as [->|Hne].
    - exists (withResult P self b). split; [apply lookup_insert_eq|done].
    - exists Q. split; [|done]. simpl. by rewrite lookup_insert_ne. }
  exists σ1, (with_path σ1 q (withResult Q' self b)). split; [done|].
  rewrite (use_unfold self q σ1 Q' HQ' m (<[id self := b]> mem))
    by (done || apply lookup_insert_eq).
  rewrite lookup_insert_eq. split; [done|]. split; [|done].
  eapply withResult_recorded. apply lookup_insert_eq.
Qed.

Lemma use_after_regenerateAndMemorize_witness :
  ∃ σ1 σ2,
    regenerateAndMemorize (ex_data (ex_raw 2 None) (Some [false]))
      (Some 1%positive) true (ex_state [] ∅) = (Return [1%positive], σ1)
    ∧ use (ex_data (ex_raw 2 None) (Some [false])) (Some 1%positive) true σ1
      = (Return [1%positive], σ2)
    ∧ recorded σ2 1%positive (ex_data (ex_raw 2 None) (Some [false])) [true; true]
    ∧ memories σ2 = memories σ1
    ∧ rng σ2 = rng σ1.
Proof.
  apply (use_after_regenerateAndMemorize (ex_data (ex_raw 2 None) (Some [false]))
           1%positive 1%positive true true (ex_state [] ∅)
           (ex_path (Some 1%positive) []) (ex_path (Some 1%positive) [])
           1%positive ∅); reflexivity.
Defined.

(** X13: what [learn] memorized is what [valueCMP] compares with
    afterwards: after a [learn] that returned successors, [valueCMP] on a
    path attached to the same memory succeeds exactly on the contents that
    begin with the prefix recorded by the last successor, and records that
    prefix, whatever the [currentValue] of the data. *)
Theorem valueCMP_after_learn self pp acb carnivorous σ P m mem c :
  paths σ !! pp = Some P →
  memory P = Some m →
  memories σ !! m = Some mem →
  dataAssignedToVariable P !! id self = Some c →
  ∃ succs σ',
    learn self (Some pp) acb carnivorous σ = (Return succs, σ')
    ∧ ∀ l b q Q c2 acb' carnivorous',
        last succs = Some l → recorded σ' l self b →
        paths σ' !! q = Some Q → memory Q = Some m →
        dataAssignedToVariable Q !! id self = Some c2 →
        valueCMP self (Some q) acb' carnivorous' σ'
        = if bool_decide (b `prefix_of` c2)
          then (Return [q], with_path σ' q (withResult Q self b))
          else (Return [], σ').
Proof.
  intros Hpath HmP Hm Hcontent.
  destruct (search_call true self pp σ P c m mem Hpath Hcontent (λ _, conj HmP Hm)
              acb carnivorous)
    as (succs & σ' & Hrun & Hall & _ & _ & _ & _ & Hmems & _).
  exists succs, σ'. split; [done|].
  intros l b q Q c2 acb' carnivorous' Hlast Hb Hq HmQ Hc2.
  pose proof (Forall2_last _ _ _ Hall) as Hl. rewrite Hlast in Hl.
  inversion Hl as [? L HP Heq1 Heq2|]; subst.
  rewrite <- Heq2 in Hmems.
  rewrite (recorded_functional _ _ _ _ _ Hb (withResult_recorded _ _ _ _ _ HP)).
  rewrite (valueCMP_unfold self q σ' Q m (<[id self := take L c]> mem))
    by (done || (rewrite Hmems; apply lookup_insert_eq)).
  by rewrite lookup_insert_eq, Hc2.
Qed.

Lemma valueCMP_after_learn_witness :
  ∃ succs σ',
    learn (ex_data (ex_type 2 (Some 3)) None) (Some 1%positive) true false
      (ex_state [true; false; true] ∅) = (Return succs, σ')
    ∧ ∀ l b q Q c2 acb' carnivorous',
        last succs = Some l →
        recorded σ' l (ex_data (ex_type 2 (Some 3)) None) b →
        paths σ' !! q = Some Q → memory Q = Some 1%positive →
        dataAssignedToVariable Q !! 1%positive = Some c2 →
        valueCMP (ex_data (ex_type 2 (Some 3)) None) (Some q) acb' carnivorous' σ'
        = if bool_decide (b `prefix_of` c2)
          then (Return [q],
                with_path σ' q (withResult Q (ex_data (ex_type 2 (Some 3)) None) b))
          else (Return [], σ').
Proof.
  apply (valueCMP_after_learn (ex_data (ex_type 2 (Some 3)) None) 1%positive
           true false (ex_state [true; false; true] ∅)
           (ex_path (Some 1%positive) [true; false; true]) 1%positive ∅
           [true; false; true]); reflexivity.
Defined.

Lemma isDefined_unfold self pp σ P m mem :
  paths σ !! pp = Some P → memory P = Some m → memories σ !! m = Some mem →
  isDefined self (Some pp) σ
  = (Return (bool_decide (is_Some (currentValue self) ∨ is_Some (mem !! id self))), σ).
Proof.
  intros Hpath HmP Hm. unfold isDefined.
  destruct (currentValue self) as [v|].
  - rewrite bool_decide_true by done. by rewrite bool_decide_true by eauto.
  - rewrite bool_decide_false by (by intros ?).
    rewrite bind_run, (getMemory_run _ _ P), HmP by done.
    rewrite (hasValue_run _ _ _ mem) by done. do 2 f_equal.
    apply bool_decide_ext. split; [by right|]. by intros [[? [=]]|?].
Qed.

(** X14: [isDefined] tells what the other methods will do on the same path:
    it returns true exactly when [use] returns the path, and false exactly
    when [use] returns nothing, which is exactly when [valueCMP] raises its
    configuration error. *)
Theorem isDefined_predicts self pp acb carnivorous σ P m mem :
  paths σ !! pp = Some P →
  memory P = Some m →
  memories σ !! m = Some mem →
  (isDefined self (Some pp) σ = (Return true, σ)
   ↔ ∃ σ', use self (Some pp) acb σ = (Return [pp], σ'))
  ∧ (isDefined self (Some pp) σ = (Return false, σ)
     ↔ use self (Some pp) acb σ = (Return [], σ))
  ∧ (isDefined self (Some pp) σ = (Return false, σ)
     ↔ valueCMP self (Some pp) acb carnivorous σ
       = (Raise (Exception
            "Data '{0}' has no value defined in its definition domain"), σ)).
Proof.
  intros Hpath HmP Hm.
  rewrite (isDefined_unfold self pp σ P m mem) by done.
  rewrite (use_unfold self pp σ P Hpath m mem) by done.
  rewrite (valueCMP_unfold self pp σ P m mem) by done.
  destruct (mem !! id self) as [b|], (currentValue self) as [v|];
    (rewrite bool_decide_true by eauto)
    || (rewrite bool_decide_false by (by intros [[? [=]]|[? [=]]]));
    (split_and!; split); try done; eauto;
    try (by intros [? [=]]);
    try (destruct (dataAssignedToVariable P !! id self); try case_bool_decide; done).
Qed.

Lemma isDefined_predicts_witness :
  isDefined (ex_data (ex_raw 0 None) None) (Some 1%positive) (ex_state [true] ∅)
    = (Return false, ex_state [true] ∅)
  ↔ use (ex_data (ex_raw 0 None) None) (Some 1%positive) true (ex_state [true] ∅)
    = (Return [], ex_state [true] ∅).
Proof.
  apply (isDefined_predicts (ex_data (ex_raw 0 None) None) 1%positive true false
           (ex_state [true] ∅) (ex_path (Some 1%positive) [true]) 1%positive ∅);
    reflexivity.
Defined.

(** ** A path without a memory *)

Lemma search_for_learning_without_memory self pp c P sizes :
  ∀ results σ,
    paths σ !! pp = Some P → memory P = None →
    filter (λ size, accepts self c size) sizes ≠ [] →
    (search_for true self pp c sizes results σ).1 = Raise AttributeError.
Proof.
  induction sizes as [|size sizes IH]; intros results σ Hpath HmP Hsome; [done|].
  rewrite filter_cons in Hsome. simpl.
  destruct (accepts self c size); simpl in Hsome; [|by apply IH].
  rewrite bind_run, (duplicate_run _ _ P) by done.
  rewrite bind_run, (addResult_run _ _ _ _ P) by (simpl; apply lookup_insert_eq).
  rewrite !bind_run.
  rewrite (getMemory_run _ _ (withResult P self (slice_to c size)))
    by (simpl; apply lookup_insert_eq).
  simpl. by rewrite HmP.
Qed.

(** X15: only [valueCMP] and [isDefined] check that the path has a memory.
    On a path without one, [regenerate] works as usual; [use] raises an
    attribute error even when the data has a [currentValue];
    [regenerateAndMemorize] raises it after the value was drawn, so the
    random source has advanced and nothing is recorded; [learn] raises it
    as soon as a length is accepted and returns nothing when none is. *)
Theorem methods_without_memory self pp acb σ P :
  paths σ !! pp = Some P →
  memory P = None →
  (∃ σ', regenerate self (Some pp) acb σ = (Return [pp], σ'))
  ∧ use self (Some pp) acb σ = (Raise AttributeError, σ)
  ∧ regenerateAndMemorize self (Some pp) acb σ
    = (Raise AttributeError,
       {| paths := paths σ; memories := memories σ;
          rng := (generate (dataType self) (rng σ)).2 |})
  ∧ (∀ c carnivorous,
       dataAssignedToVariable P !! id self = Some c →
       (call_lengths self c carnivorous ≠ [] →
          (learn self (Some pp) acb carnivorous σ).1 = Raise AttributeError)
       ∧ (call_lengths self c carnivorous = [] →
          learn self (Some pp) acb carnivorous σ = (Return [], σ))).
Proof.
  intros Hpath HmP. split_and!.
  - rewrite (regenerate_unfold self pp σ P) by done. eauto.
  - unfold use. by rewrite bind_run, (getMemory_run _ _ P), HmP.
  - unfold regenerateAndMemorize, generateValue. rewrite bind_run.
    destruct (generate (dataType self) (rng σ)) as [b g]. simpl.
    by rewrite bind_run, (getMemory_run _ _ P), HmP.
  - intros c carnivorous Hcontent.
    unfold call_lengths, accepted_lengths.
    destruct (size (dataType self)) as [mn mx] eqn:Hsize. cbn [fst snd].
    rewrite (learn_unfold self pp σ P c mn mx) by done.
    case_bool_decide; [done|].
    destruct (search_bounds mn mx (length c) carnivorous) as [hi lo]. cbn [fst snd].
    split.
    + intros Hsome. eapply search_for_learning_without_memory; try done.
      rewrite filter_accepts_nat. by intros Hnone%fmap_nil_inv.
    + intros Hnone. apply search_for_nothing_accepted.
      by rewrite filter_accepts_nat, Hnone.
Qed.

Lemma methods_without_memory_witness :
  use (ex_data (ex_raw 0 None) (Some [true])) (Some 1%positive) true
    (ex_state_no_memory [true; false])
  = (Raise AttributeError, ex_state_no_memory [true; false])
  ∧ (learn (ex_data (ex_raw 0 None) (Some [true])) (Some 1%positive) true false
       (ex_state_no_memory [true; false])).1 = Raise AttributeError.
Proof.
  destruct (methods_without_memory (ex_data (ex_raw 0 None) (Some [true]))
              1%positive true (ex_state_no_memory [true; false])
              (ex_path None [true; false]) eq_refl eq_refl)
    as (_ & Huse & _ & Hlearn).
  split; [exact Huse|].
  apply (Hlearn [true; false] false eq_refl). discriminate.
Defined.

(** ** Memorization *)

(** X16: with the memory shared between a path and its duplicates, what a
    memorizing call leaves in it: after [regenerateAndMemorize] the memory
    attached to the path holds for the field the generated value that the
    path records; after [learn] every successor records its own prefix and
    the memory, to which all of them and the input path are attached,
    holds for the field the prefix of the last accepted length, the
    shortest, which is the one that the last successor records; a [learn]
    that accepts no length returns nothing and changes nothing. *)
Theorem memory_holds_what_was_memorized self pp acb σ P m mem :
  paths σ !! pp = Some P →
  memory P = Some m →
  memories σ !! m = Some mem →
  (∃ σ',
     regenerateAndMemorize self (Some pp) acb σ = (Return [pp], σ')
     ∧ recorded σ' pp self (generate (dataType self) (rng σ)).1
     ∧ memorized σ' pp self (generate (dataType self) (rng σ)).1)
  ∧ (∀ c carnivorous,
       dataAssignedToVariable P !! id self = Some c →
       ∃ succs σ',
         learn self (Some pp) acb carnivorous σ = (Return succs, σ')
         ∧ Forall2 (λ l L, recorded σ' l self (take L c))
             succs (call_lengths self c carnivorous)
         ∧ match last (call_lengths self c carnivorous) with
           | Some L =>
               (∃ l, last succs = Some l ∧ recorded σ' l self (take L c))
               ∧ (∀ l, l ∈ succs → memorized σ' l self (take L c))
               ∧ memorized σ' pp self (take L c)
               ∧ (∀ L', L' ∈ call_lengths self c carnivorous → L ≤ L')
           | None => succs = [] ∧ σ' = σ
           end).
Proof.
  intros Hpath HmP Hm. split.
  - rewrite (regenerateAndMemorize_unfold self pp σ P Hpath m mem) by done.
    eexists. split; [done|]. split.
    + eapply withResult_recorded. simpl. apply lookup_insert_eq.
    + eexists _, m, _. simpl. rewrite !lookup_insert_eq.
      split_and!; [done|done|done|]. by rewrite ?lookup_insert_eq.
  - intros c carnivorous Hcontent.
    destruct (search_call true self pp σ P c m mem Hpath Hcontent
                (λ _, conj HmP Hm) acb carnivorous)
      as (succs & σ' & Hrun & Hall & _ & Hnew & Hold & _ & Hmems & Hnil).
    exists succs, σ'. split; [done|]. split.
    { eapply Forall2_impl; [exact Hall|]. intros l L HP. simpl in HP.
      eapply withResult_recorded. exact HP. }
    pose proof (Forall2_last _ _ _ Hall) as Hlast. revert Hmems Hlast.
    destruct (last (call_lengths self c carnivorous)) as [L|] eqn:HL;
      intros Hmems Hlast.
    + assert (memories σ' !! m = Some (<[id self := take L c]> mem)) as Hm'
        by (rewrite Hmems; apply lookup_insert_eq).
      split_and!.
      * inversion Hlast as [l ? HP|]; subst. exists l.
        split; [done|]. by eapply withResult_recorded.
      * intros l Hl.
        destruct (successors_recorded _ _ _ _ _ _ _ Hall Hl) as (L' & _ & HP).
        eexists _, m, _. split_and!; [done|done|done|]. apply lookup_insert_eq.
      * eexists P, m, _. rewrite Hold by eauto.
        split_and!; [done|done|done|]. apply lookup_insert_eq.
      * intros L' [i Hi]%list_elem_of_lookup.
        apply last_Some in HL as [front HL].
        destruct (decide (i < length front)) as [Hlt|Hge].
        -- assert (call_lengths self c carnivorous !! length front = Some L) as HLi.
           { rewrite HL. by rewrite list_lookup_middle. }
           pose proof (strongly_sorted_lookup _ _ _ _ _ _
                         (call_lengths_strongly_sorted self c carnivorous)
                         Hlt Hi HLi) as Hord.
           simpl in Hord. lia.
        -- apply lookup_lt_Some in Hi as Hbound.
           rewrite HL, length_app in Hbound. simpl in Hbound.
           assert (i = length front) as -> by lia.
           rewrite HL, list_lookup_middle in Hi by done. injection Hi as ->. lia.
    + inversion Hlast as [|Hs Hk]. symmetry in Hs. apply last_None in Hs.
      split; [done|]. by apply Hnil.
Qed.

Lemma memory_holds_what_was_memorized_witness :
  ∃ succs σ',
    learn (ex_data (ex_raw 0 None) None) (Some 1%positive) true false
      (ex_state [true; false] ∅) = (Return succs, σ')
    ∧ Forall2 (λ l L, recorded σ' l (ex_data (ex_raw 0 None) None)
                        (take L [true; false]))
        succs [2; 1; 0]
    ∧ (∀ l, l ∈ succs → memorized σ' l (ex_data (ex_raw 0 None) None) []).
Proof.
  destruct (memory_holds_what_was_memorized (ex_data (ex_raw 0 None) None)
              1%positive true (ex_state [true; false] ∅)
              (ex_path (Some 1%positive) [true; false])
              1%positive ∅ eq_refl eq_refl eq_refl) as [_ Hlearn].
  destruct (Hlearn [true; false] false eq_refl)
    as (succs & σ' & Hrun & Hall & _ & Hmemorized & _).
  exists succs, σ'. split; [exact Hrun|]. split; [exact Hall|exact Hmemorized].
Defined.
